(** * Public-key encryption over a group and a sponge (o1js, [encryption.ts])

    A shallow embedding of [src/lib/provable/crypto/encryption.ts]: the legacy
    [encrypt]/[decrypt] pair on field elements and the byte-oriented
    [encryptV2]/[decryptV2] pair, with the theorems that settle what the
    specification says about them.

    The group, the field, the Poseidon sponge and the byte/word conversions
    are imported by [encryption.ts] from other modules; they enter the
    development as the interface [Primitives].  JavaScript objects that the
    functions mutate (the [cipherText] array, the [Bytes] message) live in an
    explicit [store], addressed by location, so that aliasing between the
    caller and the callee is visible. *)

From Stdlib Require Import ZArith List Lia.
From Stdlib.Strings Require Import Byte.
From stdpp Require Import base option list strings gmap.

(** ** The imported primitives *)

(** What [encryption.ts] imports: [Field], [Scalar], [Group] (wrapped.js),
    [Poseidon.Sponge] (poseidon.js), [bytesToWord] and [wordToBytes]
    (gadgets/bit-slices.js).  [PublicKey.toGroup()] and [PrivateKey.s] are
    projections; a public key is represented by its group element and a private
    key by its scalar. *)
Class Primitives : Type := {
  Field : Type;
  Field_eq_dec :: EqDecision Field;
  Field_add : Field → Field → Field;
  Field_sub : Field → Field → Field;
  Field_from : Z → Field;
  Scalar : Type;
  Group : Type;
  Group_generator : Group;
  Group_scale : Group → Scalar → Group;
  Group_x : Group → Field;
  SpongeState : Type;
  Sponge_initial : SpongeState;
  Sponge_absorb : SpongeState → Field → SpongeState;
  Sponge_squeeze : SpongeState → Field * SpongeState;
  bytesToWord : list byte → Field;
  wordToBytes : Field → nat → list byte;
}.

(** The algebra the protocol relies on: subtraction undoes addition, scalar
    multiplication of the generator commutes (Diffie-Hellman), a word unpacks
    into as many bytes as asked for, and a packed 31-byte chunk unpacks to
    itself followed by a zero 32nd byte. *)
Class PrimitivesLaws (P : Primitives) : Prop := {
  Field_add_sub : ∀ a k : Field, Field_sub (Field_add a k) k = a;
  Group_scale_comm : ∀ a b : Scalar,
    Group_scale (Group_scale Group_generator a) b =
    Group_scale (Group_scale Group_generator b) a;
  wordToBytes_length : ∀ (w : Field) (n : nat), length (wordToBytes w n) = n;
  wordToBytes_bytesToWord : ∀ chunk : list byte,
    length chunk = 31 → wordToBytes (bytesToWord chunk) 32 = chunk ++ [x00];
}.

(** ** Results and errors *)

(** A call either returns or throws.  [AssertionError] is the failure of
    [assertEquals]; [TypeError] is what JavaScript raises when a missing value
    ([undefined]) is used as an object. *)
Inductive error : Type := AssertionError | TypeError.

Inductive result (A : Type) : Type :=
  | Ok (a : A)
  | Err (e : error).
Arguments Ok {A} a.
Arguments Err {A} e.

Definition result_bind {A B : Type} (r : result A) (k : A → result B) : result B :=
  match r with
  | Ok a => k a
  | Err e => Err e
  end.

Declare Scope result_scope.
Delimit Scope result_scope with R.
Notation "x <- c1 ;; c2" := (result_bind c1 (λ x, c2))
  (at level 20, c1 at level 99, c2 at level 200, only parsing) : result_scope.
Notation "' pat <- c1 ;; c2" := (result_bind c1 (λ pat, c2))
  (at level 20, pat pattern, c1 at level 99, c2 at level 200, only parsing)
  : result_scope.

(** [a[i]]: reading past the end yields [undefined], and every use of an
    element below is a method call or an argument that is dereferenced, so the
    read is modelled as throwing there. *)
Definition index {A : Type} (a : list A) (i : nat) : result A :=
  match a !! i with
  | Some x => Ok x
  | None => Err TypeError
  end.

(** [for (let i = start; i < start + count; i++) body]. *)
Fixpoint for_range {St : Type} (i count : nat) (body : nat → St → result St)
    (st : St) : result St :=
  match count with
  | O => Ok st
  | S count' => (st' <- body i st ;; for_range (S i) count' body st')%R
  end.

(** ** Calls that mutate the store *)

(** A call runs in a store and leaves a store behind, also when it throws:
    what was mutated before the exception stays mutated. *)
Definition Exec (S A : Type) : Type := S → result A * S.

Definition Exec_ret {S A : Type} (a : A) : Exec S A := λ σ, (Ok a, σ).

Definition Exec_bind {S A B : Type} (m : Exec S A) (k : A → Exec S B) : Exec S B :=
  λ σ, match m σ with
       | (Ok a, σ') => k a σ'
       | (Err e, σ') => (Err e, σ')
       end.

(** A computation that does not touch the store. *)
Definition Exec_lift {S A : Type} (r : result A) : Exec S A := λ σ, (r, σ).

Declare Scope exec_scope.
Delimit Scope exec_scope with E.
Notation "x <- c1 ;; c2" := (Exec_bind c1 (λ x, c2))
  (at level 20, c1 at level 99, c2 at level 200, only parsing) : exec_scope.
Notation "' pat <- c1 ;; c2" := (Exec_bind c1 (λ pat, c2))
  (at level 20, pat pattern, c1 at level 99, c2 at level 200, only parsing)
  : exec_scope.

(** ** JavaScript built-ins *)

(** The index that [Array.prototype.slice] derives from a relative one: a
    negative argument counts from the end, and both are clamped to the array. *)
Definition relative_index (len k : Z) : Z :=
  if (k <? 0)%Z then Z.max (len + k) 0 else Z.min k len.

(** [a.slice(start, end)] *)
Definition Array_slice {A : Type} (a : list A) (start end_ : Z) : list A :=
  let len := Z.of_nat (length a) in
  let k := relative_index len start in
  let final := relative_index len end_ in
  take (Z.to_nat (final - k)) (drop (Z.to_nat k) a).

(** [Math.ceil(a / b)] for integers [a] and [b > 0]. *)
Definition Math_ceil_div (a b : Z) : Z := (- ((- a) / b))%Z.

(** [Math.ceil(messageLength / multipleOf) * multipleOf], as both [encryptV2]
    and [decryptV2] compute it. *)
Definition padded_length (messageLength : Z) : Z :=
  let multipleOf := 31%Z in
  (Math_ceil_div messageLength multipleOf * multipleOf)%Z.

(** [bytes.concat(padding)] of [encryptV2]: the bytes followed by
    [n - messageLength] zero bytes. *)
Definition padded_bytes (bytes : list byte) : list byte :=
  let messageLength := Z.of_nat (length bytes) in
  bytes ++ replicate (Z.to_nat (padded_length messageLength - messageLength)) x00.

(** Modelled from the spec: [Bytes.chunk] (bytes.js is not among the sources):
    "splits into fixed 31-byte groups", that is [length / size] consecutive
    groups of [size] bytes. *)
Definition chunk (bytes : list byte) (size : nat) : list (list byte) :=
  map (λ i, take size (drop (size * i) bytes)) (seq 0 (length bytes / size)).

(** ** The sponge object *)

Section Encryption.
Context {P : Primitives}.

(** The calls made on a sponge, in order.  The history is kept next to the
    sponge state only to state the absorb schedule; no operation reads it. *)
Inductive sponge_call : Type :=
  | Absorb (x : Field)
  | Squeeze.

Record Sponge : Type := mkSponge {
  sponge_state : SpongeState;
  sponge_calls : list sponge_call;
}.

(** [new Poseidon.Sponge()] *)
Definition Sponge_new : Sponge :=
  {| sponge_state := Sponge_initial; sponge_calls := [] |}.

(** [sponge.absorb(x)] *)
Definition absorb (sponge : Sponge) (x : Field) : Sponge :=
  {| sponge_state := Sponge_absorb (sponge_state sponge) x;
     sponge_calls := sponge_calls sponge ++ [Absorb x] |}.

(** [sponge.squeeze()] *)
Definition squeeze (sponge : Sponge) : Field * Sponge :=
  let '(out, st) := Sponge_squeeze (sponge_state sponge) in
  (out, {| sponge_state := st; sponge_calls := sponge_calls sponge ++ [Squeeze] |}).

(** [if (cond) sponge.absorb(a[i])] *)
Definition absorb_if (cond : bool) (a : list Field) (i : nat) (sponge : Sponge)
    : result Sponge :=
  if cond then (x <- index a i ;; Ok (absorb sponge x))%R else Ok sponge.

(** ** The four streaming loops *)

(** The body of the loop of [encrypt] (lines 31-38).  The loop state is the
    sponge and the [cipherText] array under construction.  [i - 1] is only
    evaluated for odd [i], and [message.length - 1] only inside the loop, so
    the truncated subtraction of [nat] agrees with JavaScript's. *)
Definition encrypt_body (message : list Field) (i : nat)
    (st : Sponge * list Field) : result (Sponge * list Field) :=
  let '(sponge, cipherText) := st in
  let '(keyStream, sponge) := squeeze sponge in
  (m <- index message i ;;
   let encryptedChunk := Field_add m keyStream in
   let cipherText := cipherText ++ [encryptedChunk] in
   sponge <- absorb_if (i mod 2 =? 1) cipherText (i - 1) sponge ;;
   sponge <- absorb_if ((i mod 2 =? 1) || (i =? length message - 1))
               cipherText i sponge ;;
   Ok (sponge, cipherText))%R.

(** The body of the loop of [decrypt] (lines 63-70); [cipherText] is the array
    after the tag was popped, the loop state is the sponge and [message]. *)
Definition decrypt_body (cipherText : list Field) (i : nat)
    (st : Sponge * list Field) : result (Sponge * list Field) :=
  let '(sponge, message) := st in
  let '(keyStream, sponge) := squeeze sponge in
  (c <- index cipherText i ;;
   let messageChunk := Field_sub c keyStream in
   let message := message ++ [messageChunk] in
   sponge <- absorb_if (i mod 2 =? 1) cipherText (i - 1) sponge ;;
   sponge <- absorb_if ((i mod 2 =? 1) || (i =? length cipherText - 1))
               cipherText i sponge ;;
   Ok (sponge, message))%R.

(** The frame bit absorbed before each squeeze of the V2 loops. *)
Definition absorb_frame (i len : nat) (sponge : Sponge) : Sponge :=
  if i =? len - 1 then absorb sponge (Field_from 1)
  else absorb sponge (Field_from 0).

(** The body of the loop of [decryptV2] (lines 96-113); [message] collects one
    32-byte array per chunk. *)
Definition decryptV2_body (cipherText : list Field) (i : nat)
    (st : Sponge * list (list byte)) : result (Sponge * list (list byte)) :=
  let '(sponge, message) := st in
  let sponge := absorb_frame i (length cipherText) sponge in
  let '(keyStream, sponge) := squeeze sponge in
  (c <- index cipherText i ;;
   let messageChunk := Field_sub c keyStream in
   let byteMessage := wordToBytes messageChunk 32 in
   let message := message ++ [byteMessage] in
   sponge <- absorb_if (i mod 2 =? 1) cipherText (i - 1) sponge ;;
   sponge <- absorb_if ((i mod 2 =? 1) || (i =? length cipherText - 1))
               cipherText i sponge ;;
   Ok (sponge, message))%R.

(** The body of the loop of [encryptV2] (lines 161-174), over
    [chunks.entries()]. *)
Definition encryptV2_body (chunks : list (list byte)) (n : nat)
    (st : Sponge * list Field) : result (Sponge * list Field) :=
  let '(sponge, cipherText) := st in
  let sponge := absorb_frame n (length chunks) sponge in
  let '(keyStream, sponge) := squeeze sponge in
  (chunk <- index chunks n ;;
   let encryptedChunk := Field_add (bytesToWord chunk) keyStream in
   let cipherText := cipherText ++ [encryptedChunk] in
   sponge <- absorb_if (n mod 2 =? 1) cipherText (n - 1) sponge ;;
   sponge <- absorb_if ((n mod 2 =? 1) || (n =? length chunks - 1))
               cipherText n sponge ;;
   Ok (sponge, cipherText))%R.

Definition encrypt_loop (message : list Field) (sponge : Sponge)
    : result (Sponge * list Field) :=
  for_range 0 (length message) (encrypt_body message) (sponge, []).

Definition decrypt_loop (cipherText : list Field) (sponge : Sponge)
    : result (Sponge * list Field) :=
  for_range 0 (length cipherText) (decrypt_body cipherText) (sponge, []).

Definition encryptV2_loop (chunks : list (list byte)) (sponge : Sponge)
    : result (Sponge * list Field) :=
  for_range 0 (length chunks) (encryptV2_body chunks) (sponge, []).

Definition decryptV2_loop (cipherText : list Field) (sponge : Sponge)
    : result (Sponge * list (list byte)) :=
  for_range 0 (length cipherText) (decryptV2_body cipherText) (sponge, []).

(** ** The store *)

(** The objects the four operations share with their callers: arrays of field
    elements (the [cipherText] of a ciphertext record), which [pop] mutates in
    place, and [Bytes] objects, whose [bytes] property is reassigned.  A byte
    array itself is never mutated, so a [Bytes] object is represented by the
    contents of its [bytes] property. *)
Record store : Type := mkStore {
  field_arrays : gmap positive (list Field);
  bytes_objects : gmap positive (list byte);
}.

(** [{ publicKey, cipherText }]: the record holds a reference to the array. *)
Record CipherText : Type := mkCipherText {
  publicKey : Group;
  cipherText : positive;
}.

(** [CipherText & { messageLength: number }] *)
Record CipherTextV2 : Type := mkCipherTextV2 {
  base : CipherText;
  messageLength : Z;
}.

(** [a.pop()]: removes and returns the last element; on an empty array it
    returns [undefined] and leaves the array as it is. *)
Definition Array_pop (a : positive) : Exec store (option Field) :=
  λ σ, match field_arrays σ !! a with
       | Some xs =>
           (Ok (last xs),
            {| field_arrays := <[a := removelast xs]> (field_arrays σ);
               bytes_objects := bytes_objects σ |})
       | None => (Err TypeError, σ)
       end.

(** The elements of the array at [a], as a loop that does not mutate it reads
    them through [a.length] and [a[i]]. *)
Definition Array_read (a : positive) : Exec store (list Field) :=
  λ σ, match field_arrays σ !! a with
       | Some xs => (Ok xs, σ)
       | None => (Err TypeError, σ)
       end.

(** A new array: the local [cipherText] of the encrypting side, handed to the
    caller in the returned record. *)
Definition Array_alloc (xs : list Field) : Exec store positive :=
  λ σ, let a := fresh (dom (field_arrays σ)) in
       (Ok a,
        {| field_arrays := <[a := xs]> (field_arrays σ);
           bytes_objects := bytes_objects σ |}).

(** [message.bytes] *)
Definition Bytes_get (b : positive) : Exec store (list byte) :=
  λ σ, match bytes_objects σ !! b with
       | Some bs => (Ok bs, σ)
       | None => (Err TypeError, σ)
       end.

(** [message.bytes = bs] *)
Definition Bytes_set (b : positive) (bs : list byte) : Exec store unit :=
  λ σ, (Ok tt,
        {| field_arrays := field_arrays σ;
           bytes_objects := <[b := bs]> (bytes_objects σ) |}).

(** [message.chunk(size)] *)
Definition Bytes_chunk (b : positive) (size : nat) : Exec store (list (list byte)) :=
  (bs <- Bytes_get b ;; Exec_ret (chunk bs size))%E.

(** [x.assertEquals(y!)]: the [!] is erased by the compiler, so a missing [y]
    reaches [assertEquals] as [undefined] and is dereferenced there. *)
Definition assertEquals (x : Field) (y : option Field) : result unit :=
  match y with
  | Some y => if decide (x = y) then Ok tt else Err AssertionError
  | None => Err TypeError
  end.

(** ** The four operations *)

(** [encrypt(message, otherPublicKey)] (lines 20-44).  [privateKey] is the
    scalar that [Scalar.random()] returned.  [message] is only read. *)
Definition encrypt (message : list Field) (otherPublicKey : Group)
    (privateKey : Scalar) : Exec store CipherText :=
  (let publicKey := Group_scale Group_generator privateKey in
   let sharedSecret := Group_scale otherPublicKey privateKey in
   let sponge := absorb Sponge_new (Group_x sharedSecret) in
   ' (sponge, cipherText) <- Exec_lift (encrypt_loop message sponge) ;;
   let '(authenticationTag, sponge) := squeeze sponge in
   let cipherText := cipherText ++ [authenticationTag] in
   a <- Array_alloc cipherText ;;
   Exec_ret {| publicKey := publicKey; cipherText := a |})%E.

(** [decrypt({ publicKey, cipherText }, privateKey)] (lines 50-75). *)
Definition decrypt (c : CipherText) (privateKey : Scalar) : Exec store (list Field) :=
  (let sharedSecret := Group_scale (publicKey c) privateKey in
   let sponge := absorb Sponge_new (Group_x sharedSecret) in
   authenticationTag <- Array_pop (cipherText c) ;;
   elements <- Array_read (cipherText c) ;;
   ' (sponge, message) <- Exec_lift (decrypt_loop elements sponge) ;;
   _ <- Exec_lift (assertEquals (fst (squeeze sponge)) authenticationTag) ;;
   Exec_ret message)%E.

(** [decryptV2({ publicKey, cipherText, messageLength }, privateKey)]
    (lines 80-124).  The value is the contents of the [Bytes] returned. *)
Definition decryptV2 (c : CipherTextV2) (privateKey : Scalar) : Exec store (list byte) :=
  (let sharedSecret := Group_scale (publicKey (base c)) privateKey in
   let sponge := absorb Sponge_new (Group_x sharedSecret) in
   authenticationTag <- Array_pop (cipherText (base c)) ;;
   elements <- Array_read (cipherText (base c)) ;;
   ' (sponge, message) <- Exec_lift (decryptV2_loop elements sponge) ;;
   _ <- Exec_lift (assertEquals (fst (squeeze sponge)) authenticationTag) ;;
   let n := padded_length (messageLength c) in
   Exec_ret (Array_slice (concat message) 0 (messageLength c - n)))%E.

(** [encryptV2(message, otherPublicKey)] (lines 129-181); [message] is the
    location of the caller's [Bytes] object. *)
Definition encryptV2 (message : positive) (otherPublicKey : Group)
    (privateKey : Scalar) : Exec store CipherTextV2 :=
  (bytes <- Bytes_get message ;;
   let messageLength := Z.of_nat (length bytes) in
   let n := padded_length messageLength in
   let padding := replicate (Z.to_nat (n - messageLength)) x00 in
   _ <- Bytes_set message (bytes ++ padding) ;;
   chunks <- Bytes_chunk message 31 ;;
   let publicKey := Group_scale Group_generator privateKey in
   let sharedSecret := Group_scale otherPublicKey privateKey in
   let sponge := absorb Sponge_new (Group_x sharedSecret) in
   ' (sponge, cipherText) <- Exec_lift (encryptV2_loop chunks sponge) ;;
   let '(authenticationTag, sponge) := squeeze sponge in
   let cipherText := cipherText ++ [authenticationTag] in
   a <- Array_alloc cipherText ;;
   Exec_ret {| base := {| publicKey := publicKey; cipherText := a |};
               messageLength := messageLength |})%E.

End Encryption.

(** ** The absorb schedule, as the specification words it *)

Section Schedule.
Context {P : Primitives}.

(** The re-absorption of ciphertext at chunk index [i] of a ciphertext [c]
    (tag excluded): the previous element when [i] is odd, then the current
    element when [i] is odd or [i] is the final index. *)
Definition tag_absorbs (c : list Field) (i : nat) : list sponge_call :=
  (if Nat.odd i then from_option (λ x, [Absorb x]) [] (c !! (i - 1)) else []) ++
  (if Nat.odd i || (i =? length c - 1)
   then from_option (λ x, [Absorb x]) [] (c !! i) else []).

(** The calls of one iteration: the frame bit (V2 only), the squeeze of the
    key stream, the re-absorption. *)
Definition chunk_calls (framed : bool) (c : list Field) (i : nat) : list sponge_call :=
  (if framed
   then [Absorb (Field_from (if i =? length c - 1 then 1 else 0))]
   else []) ++ Squeeze :: tag_absorbs c i.

(** The calls of a whole loop over the ciphertext [c]. *)
Definition stream_calls (framed : bool) (c : list Field) : list sponge_call :=
  flat_map (chunk_calls framed c) (seq 0 (length c)).

(** The field elements that a sequence of calls absorbed, in order. *)
Definition absorbed (calls : list sponge_call) : list Field :=
  flat_map (λ call, match call with Absorb x => [x] | Squeeze => [] end) calls.

(** The sponge after the key exchange, with which every loop starts. *)
Definition shared_sponge (publicKey : Group) (privateKey : Scalar) : Sponge :=
  absorb Sponge_new (Group_x (Group_scale publicKey privateKey)).

End Schedule.

(** ** A reference instance of the primitives *)

(** The base field of the Pallas curve with little-endian byte packing, and
    small arithmetic stand-ins for the curve group and for Poseidon.  The
    instance shows that the laws of [PrimitivesLaws] can be met and gives the
    closed examples something to run on. *)
Module Reference.

Definition modulus : Z :=
  0x40000000000000000000000000000000224698fc094cf91b992d30ed00000001%Z.

Definition Fp : Type := dsig (λ z : Z, (0 ≤ z < modulus)%Z).

Lemma reduce_in_range (z : Z) : bool_decide (0 ≤ z mod modulus < modulus)%Z.
Proof. apply bool_decide_pack, Z.mod_pos_bound. reflexivity. Qed.

(** The proof that a boolean holds, rebuilt so that it evaluates to [I] once
    the boolean evaluates to [true]: closed field elements then have one
    normal form. *)
Definition evaluated (b : bool) (H : Is_true b) : Is_true b :=
  match b return Is_true b → Is_true b with
  | true => λ _, I
  | false => λ H, H
  end H.

Definition Fp_of_Z (z : Z) : Fp :=
  (z mod modulus)%Z ↾ evaluated _ (reduce_in_range z).

Definition Fp_add (a b : Fp) : Fp := Fp_of_Z (`a + `b).
Definition Fp_sub (a b : Fp) : Fp := Fp_of_Z (`a - `b).

(** Stand-in for the curve group: the additive group of the integers modulo
    [modulus], a scalar acting by multiplication. *)
Definition scale (g : Fp) (s : Z) : Fp := Fp_of_Z (`g * s).

(** Stand-in for Poseidon: one field element of state. *)
Definition sponge_absorb (st x : Fp) : Fp := Fp_of_Z (3 * `st + `x + 1).
Definition sponge_squeeze (st : Fp) : Fp * Fp :=
  (Fp_of_Z (`st * `st + 7), Fp_of_Z (`st + 1)).

Definition byte_of_Z (z : Z) : byte :=
  default x00 (Byte.of_N (Z.to_N z)).

(** Modelled from the spec: [bytesToWord] (gadgets/bit-slices.js is not among
    the sources) "packs a chunk into a single field element"; the packing is
    little-endian, the 32nd byte being the one that stays zero. *)
Fixpoint le_value (bytes : list byte) : Z :=
  match bytes with
  | [] => 0
  | b :: rest => Z.of_N (Byte.to_N b) + 256 * le_value rest
  end.

Definition bytes_to_word (bytes : list byte) : Fp := Fp_of_Z (le_value bytes).

(** Modelled from the spec: [wordToBytes] (same file) "unpacks a field element
    into a 32-byte array": the [n] low bytes, least significant first. *)
Fixpoint le_bytes (n : nat) (z : Z) : list byte :=
  match n with
  | O => []
  | S n' => byte_of_Z (z mod 256) :: le_bytes n' (z / 256)
  end.

Definition word_to_bytes (w : Fp) (n : nat) : list byte := le_bytes n (`w).

#[export] Instance primitives : Primitives := {|
  Field := Fp;
  Field_add := Fp_add;
  Field_sub := Fp_sub;
  Field_from := Fp_of_Z;
  Scalar := Z;
  Group := Fp;
  Group_generator := Fp_of_Z 1;
  Group_scale := scale;
  Group_x := λ g, g;
  SpongeState := Fp;
  Sponge_initial := Fp_of_Z 0;
  Sponge_absorb := sponge_absorb;
  Sponge_squeeze := sponge_squeeze;
  bytesToWord := bytes_to_word;
  wordToBytes := word_to_bytes;
|}.

(** A store holding one [Bytes] object, at location 1. *)
Definition store_with (bytes : list byte) : store :=
  {| field_arrays := ∅; bytes_objects := {[ 1%positive := bytes ]} |}.

(** A store holding one array of field elements, at location 1. *)
Definition store_with_array (xs : list Fp) : store :=
  {| field_arrays := {[ 1%positive := xs ]}; bytes_objects := ∅ |}.

(** The recipient's key pair and the sender's ephemeral scalar of the
    examples. *)
Definition recipient : Z := 11.
Definition recipient_key : Fp := scale (Fp_of_Z 1) recipient.
Definition ephemeral : Z := 5.

(** A message of [n] letters [a]. *)
Definition letters (n : nat) : list byte := replicate n x61.

(** The ciphertext record that the encrypting side returns in the examples:
    the ephemeral public key and the first location of the store. *)
Definition sent (messageLength : Z) : CipherTextV2 :=
  {| base := {| publicKey := scale (Fp_of_Z 1) ephemeral; cipherText := 1%positive |};
     messageLength := messageLength |}.

(** What [encryptV2] produces for [letters 31] under these keys: one
    encrypted chunk and the tag. *)
Definition chunk_of_31_letters : Fp :=
  Fp_of_Z 172056260049320939891029190346855500333443451479275960659120490943130751564.
Definition tag_of_31_letters : Fp :=
  Fp_of_Z 20598807269991218391229321435407965699864981767107775985780032415028083799464.

End Reference.

(** ** The shared core of the four loops *)

(** The four loop bodies differ in two places only: the V2 loops absorb a
    frame bit first, and they convert between bytes and words.  The proofs go
    through one encrypting and one decrypting body on words, which the four
    bodies of the source are shown to refine. *)
Section Core.
Context {P : Primitives}.

Definition framed_sponge (framed : bool) (i len : nat) (sponge : Sponge) : Sponge :=
  if framed then absorb_frame i len sponge else sponge.

Definition stream_encrypt_body (framed : bool) (words : list Field) (i : nat)
    (st : Sponge * list Field) : result (Sponge * list Field) :=
  let '(sponge, cipherText) := st in
  let '(keyStream, sponge) := squeeze (framed_sponge framed i (length words) sponge) in
  (m <- index words i ;;
   let cipherText := cipherText ++ [Field_add m keyStream] in
   sponge <- absorb_if (i mod 2 =? 1) cipherText (i - 1) sponge ;;
   sponge <- absorb_if ((i mod 2 =? 1) || (i =? length words - 1))
               cipherText i sponge ;;
   Ok (sponge, cipherText))%R.

Definition stream_decrypt_body (framed : bool) (cipherText : list Field) (i : nat)
    (st : Sponge * list Field) : result (Sponge * list Field) :=
  let '(sponge, message) := st in
  let '(keyStream, sponge) :=
    squeeze (framed_sponge framed i (length cipherText) sponge) in
  (c <- index cipherText i ;;
   let message := message ++ [Field_sub c keyStream] in
   sponge <- absorb_if (i mod 2 =? 1) cipherText (i - 1) sponge ;;
   sponge <- absorb_if ((i mod 2 =? 1) || (i =? length cipherText - 1))
               cipherText i sponge ;;
   Ok (sponge, message))%R.

(** The sponge after the re-absorption of iteration [i]; [final] says whether
    [i] is the last index. *)
Definition absorb_tag (c : list Field) (i : nat) (final : bool) (sponge : Sponge)
    : Sponge :=
  let sponge :=
    if Nat.odd i then from_option (absorb sponge) sponge (c !! (i - 1)) else sponge in
  if Nat.odd i || final then from_option (absorb sponge) sponge (c !! i) else sponge.

(** What [decrypt] and [decryptV2] compute once the tag is popped: the loop
    over the remaining [elements], then the comparison of the tags. *)
Definition decrypt_result (publicKey : Group) (privateKey : Scalar)
    (elements : list Field) (authenticationTag : option Field) : result (list Field) :=
  (' (sponge, message) <- decrypt_loop elements (shared_sponge publicKey privateKey) ;;
   _ <- assertEquals (fst (squeeze sponge)) authenticationTag ;;
   Ok message)%R.

(** The [message] array of [decryptV2] for decrypted [words]: one
    [wordToBytes(word, 32)] per chunk. *)
Definition unpack (words : list Field) : list (list byte) :=
  map (λ w, wordToBytes w 32) words.

Definition decryptV2_result (publicKey : Group) (privateKey : Scalar)
    (elements : list Field) (authenticationTag : option Field) (messageLength : Z)
    : result (list byte) :=
  (' (sponge, message) <- decryptV2_loop elements (shared_sponge publicKey privateKey) ;;
   _ <- assertEquals (fst (squeeze sponge)) authenticationTag ;;
   Ok (Array_slice (concat message) 0 (messageLength - padded_length messageLength)))%R.

End Core.

(** ** The equivalence tester ([lib/testing/equivalent.ts]) *)

(** [handleErrors] and the check that [equivalent] runs on each generated
    input.  The operations under test are arbitrary closures: they act on a
    state [W] and either return or throw.  A thrown value is any JavaScript
    value, truthy or not; [handleErrors] only looks at its truthiness. *)
Module Equivalent.
Section Tester.
Context {W Value : Type} (truthy : Value → bool).

(** What can be thrown: the [AssertionError] of [deepEqual] with its message,
    the [TypeError] of a property read on [undefined], or a value thrown by
    the code under test. *)
Inductive exception : Type :=
  | AssertionError (message : string)
  | TypeError
  | UserValue (v : Value).

Inductive completion (A : Type) : Type :=
  | Returns (a : A)
  | Throws (e : exception).
#[global] Arguments Returns {A} a.
#[global] Arguments Throws {A} e.

Definition Op (A : Type) : Type := W → completion A * W.

Definition Op_ret {A : Type} (a : A) : Op A := λ w, (Returns a, w).

Definition Op_bind {A B : Type} (m : Op A) (k : A → Op B) : Op B :=
  λ w, match m w with
       | (Returns a, w') => k a w'
       | (Throws e, w') => (Throws e, w')
       end.

(** [!!error], for a variable that holds the caught value, or [undefined]
    when nothing was caught.  Error objects are truthy. *)
Definition caught_truthy (error : option exception) : bool :=
  match error with
  | Some (UserValue v) => truthy v
  | Some _ => true
  | None => false
  end.

(** [try { result = op(); } catch (err) { error = err; }] *)
Definition try_catch {A : Type} (op : Op A) (w : W)
    : option A * option exception * W :=
  match op w with
  | (Returns a, w') => (Some a, None, w')
  | (Throws e, w') => (None, Some e, w')
  end.

(** [error && console.log(error)]: what is written to the console. *)
Definition logged (error : option exception) : list exception :=
  match error with
  | Some e => if caught_truthy error then [e] else []
  | None => []
  end.

(** The message of the comparison of the two error flags: the label and a
    colon when there is a non-empty label, then [equivalent errors]. *)
Definition message_of (label : option string) : string :=
  match label with
  | Some l => if decide (l = EmptyString) then EmptyString else l +:+ ": "
  | None => EmptyString
  end +:+ "equivalent errors".

(** [handleErrors(op1, op2, useResults, label)] (lines 245-273).  The value is
    the completion ([None] for [undefined]), the state left, and the lines
    written to the console.  [useResults] receives [result1] and [result2] as
    the variables hold them, [undefined] when the operation threw. *)
Definition handleErrors {T S R : Type} (op1 : Op T) (op2 : Op S)
    (useResults : option (option T → option S → Op R)) (label : option string)
    (w : W) : completion (option R) * W * list exception :=
  let '(result1, error1, w) := try_catch op1 w in
  let '(result2, error2, w) := try_catch op2 w in
  let console :=
    if negb (eqb (caught_truthy error1) (caught_truthy error2))
    then logged error1 ++ logged error2 else [] in
  let message := message_of label in
  if negb (eqb (caught_truthy error1) (caught_truthy error2))
  then (Throws (AssertionError message), w, console)
  else
    match useResults with
    | Some f =>
        if negb (caught_truthy error1 || caught_truthy error2)
        then let '(r, w) := f result1 result2 w in
             (match r with
              | Returns r => Returns (Some r)
              | Throws e => Throws e
              end, w, console)
        else (Returns None, w, console)
    | None => (Returns None, w, console)
    end.

(** [throwError(message)] (lines 305-307); the [Error] object is a value of
    the code under test, given by [error_object]. *)
Definition throwError {A : Type} (error_object : option string → Value)
    (message : option string) : Op A :=
  λ w, (Throws (UserValue (error_object message)), w).

(** The part of a [FromSpec] and of a [ToSpec] that [equivalent] uses on an
    input: [there], [back] and the optional [assertEqual]. *)
Record FromSpec (In1 In2 : Type) : Type := {
  there : In1 → Op In2;
}.
#[global] Arguments there {In1 In2} _ _ _.

Record ToSpec (Out1 Out2 : Type) : Type := {
  back : Out2 → Op Out1;
  assertEqual : option (option Out1 → option Out1 → string → Op unit);
}.
#[global] Arguments back {Out1 Out2} _ _ _.
#[global] Arguments assertEqual {Out1 Out2} _.

(** [deepEqual(x, y, message)] of [node:assert/strict], on outputs compared
    by [same]. *)
Definition deepEqual {A : Type} (same : A → A → bool) (x y : option A)
    (message : string) : Op unit :=
  λ w, match x, y with
       | Some a, Some b =>
           if same a b then (Returns tt, w) else (Throws (AssertionError message), w)
       | None, None => (Returns tt, w)
       | _, _ => (Throws (AssertionError message), w)
       end.

(** [inputs.map((x, i) => from[i].there(x))], from index [i] on. *)
Fixpoint map_there {In1 In2 : Type} (from : list (FromSpec In1 In2)) (i : nat)
    (inputs : list In1) : Op (list In2) :=
  match inputs with
  | [] => Op_ret []
  | x :: rest =>
      match from !! i with
      | Some spec =>
          Op_bind (there spec x) (λ y,
          Op_bind (map_there from (S i) rest) (λ ys, Op_ret (y :: ys)))
      | None => λ w, (Throws TypeError, w)
      end
  end.

(** The callback that [equivalent({ from, to })(f1, f2, label)] hands to
    [test] (lines 107-119), after [args.pop()] has removed the trailing
    argument: [inputs] are the generated values. *)
Definition equivalent_case {In1 In2 Out1 Out2 : Type}
    (from : list (FromSpec In1 In2)) (to : ToSpec Out1 Out2)
    (same : Out1 → Out1 → bool)
    (f1 : list In1 → Op Out1) (f2 : list In2 → Op Out2) (label : string)
    (inputs : list In1) (w : W) : completion (option unit) * W * list exception :=
  let assertEqual := default (deepEqual same) (assertEqual to) in
  handleErrors
    (f1 inputs)
    (Op_bind (map_there from 0 inputs) (λ inputs2,
     Op_bind (f2 inputs2) (λ y, back to y)))
    (Some (λ x y, assertEqual x y label))
    (Some label) w.

End Tester.
End Equivalent.

(** * Lemmas *)

(** ** Arithmetic and lists *)

Lemma mod2_is_odd (i : nat) : (i mod 2 =? 1) = Nat.odd i.
Proof.
  pose proof (Nat.div_mod_eq i 2) as Hdiv.
  pose proof (Nat.mod_upper_bound i 2 ltac:(lia)) as Hlt.
  destruct (Nat.odd i) eqn:Hodd.
  - apply Nat.odd_spec in Hodd as [k Hk]. apply Nat.eqb_eq. lia.
  - apply Nat.eqb_neq. intros Hmod.
    assert (Nat.odd i = true) as Hi; [|congruence].
    apply Nat.odd_spec. exists (i / 2). lia.
Qed.

Lemma index_lookup {A : Type} (a : list A) (i : nat) (x : A) :
  a !! i = Some x → index a i = Ok x.
Proof. unfold index. by intros ->. Qed.

Lemma index_map {A B : Type} (f : A → B) (a : list A) (i : nat) :
  index (map f a) i = (x <- index a i ;; Ok (f x))%R.
Proof.
  unfold index. change (map f a) with (f <$> a).
  rewrite list_lookup_fmap. by destruct (a !! i).
Qed.

Lemma for_range_ext {St : Type} (f g : nat → St → result St) (n : nat) :
  (∀ i st, f i st = g i st) → ∀ i st, for_range i n f st = for_range i n g st.
Proof.
  intros Hfg. induction n as [|n IH]; intros i st; simpl; [done|].
  rewrite Hfg. destruct (g i st); simpl; auto.
Qed.

Lemma Math_ceil_div_bounds (a : Z) :
  (0 ≤ a → a ≤ Math_ceil_div a 31 * 31 < a + 31)%Z.
Proof.
  intros Ha. unfold Math_ceil_div.
  pose proof (Z.div_mod (- a) 31 ltac:(lia)).
  pose proof (Z.mod_pos_bound (- a) 31 ltac:(lia)). lia.
Qed.

Lemma padded_length_bounds (a : Z) :
  (0 ≤ a → a ≤ padded_length a < a + 31)%Z.
Proof. apply Math_ceil_div_bounds. Qed.

Lemma padded_length_multiple (k : Z) : padded_length (31 * k) = (31 * k)%Z.
Proof.
  unfold padded_length, Math_ceil_div.
  replace (- (31 * k))%Z with ((- k) * 31)%Z by lia.
  rewrite Z.div_mul by lia. lia.
Qed.

Lemma padded_length_div (a : Z) : (padded_length a = 31 * Math_ceil_div a 31)%Z.
Proof. unfold padded_length. lia. Qed.

Lemma Array_slice_0_0 {A : Type} (a : list A) : Array_slice a 0 0 = [].
Proof.
  unfold Array_slice, relative_index. simpl.
  rewrite Z.min_l by lia. done.
Qed.

Lemma Array_slice_length_le {A : Type} (a : list A) (e : Z) :
  length (Array_slice a 0 e) ≤ length a.
Proof.
  unfold Array_slice. rewrite length_take, length_drop. lia.
Qed.

(** Cutting [k] elements off the end, [0 < k ≤ length a]. *)
Lemma Array_slice_negative {A : Type} (a : list A) (k : nat) :
  0 < k ≤ length a → Array_slice a 0 (- Z.of_nat k) = take (length a - k) a.
Proof.
  intros Hk. unfold Array_slice, relative_index.
  replace (0 <? 0)%Z with false by done.
  replace (- Z.of_nat k <? 0)%Z with true by (symmetry; apply Z.ltb_lt; lia).
  rewrite Z.min_l by lia. rewrite Z.max_l by lia. simpl.
  f_equal. lia.
Qed.

(** ** The loops *)

Section CoreLemmas.
Context {P : Primitives}.

Lemma squeeze_calls (sponge : Sponge) :
  sponge_calls (snd (squeeze sponge)) = sponge_calls sponge ++ [Squeeze].
Proof. unfold squeeze. by destruct (Sponge_squeeze _). Qed.

Lemma framed_sponge_calls (framed : bool) (i len : nat) (sponge : Sponge) :
  sponge_calls (framed_sponge framed i len sponge) =
  sponge_calls sponge ++
  (if framed then [Absorb (Field_from (if i =? len - 1 then 1 else 0))] else []).
Proof.
  unfold framed_sponge, absorb_frame.
  destruct framed; [|by rewrite app_nil_r]. by destruct (i =? len - 1).
Qed.

Lemma absorb_tag_calls (c : list Field) (i : nat) (sponge : Sponge) :
  sponge_calls (absorb_tag c i (i =? length c - 1) sponge) =
  sponge_calls sponge ++ tag_absorbs c i.
Proof.
  unfold absorb_tag, tag_absorbs.
  destruct (Nat.odd i), (c !! (i - 1)), (i =? length c - 1), (c !! i); simpl;
    rewrite ?app_nil_r, <- ?app_assoc; reflexivity.
Qed.

Lemma absorb_tag_app (c rest : list Field) (i : nat) (final : bool) (sponge : Sponge) :
  i < length c → absorb_tag (c ++ rest) i final sponge = absorb_tag c i final sponge.
Proof.
  intros Hi. unfold absorb_tag.
  by rewrite !lookup_app_l by lia.
Qed.

(** The two conditional absorbs of a loop body, for an index inside [c]. *)
Lemma absorb_if_tag {B : Type} (c : list Field) (i : nat) (final : bool)
    (sponge : Sponge) (k : Sponge → result B) :
  i < length c →
  (s <- absorb_if (i mod 2 =? 1) c (i - 1) sponge ;;
   s' <- absorb_if ((i mod 2 =? 1) || final) c i s ;;
   k s')%R = k (absorb_tag c i final sponge).
Proof.
  intros Hi. rewrite mod2_is_odd.
  destruct (lookup_lt_is_Some_2 c i Hi) as [x Hx].
  destruct (lookup_lt_is_Some_2 c (i - 1) ltac:(lia)) as [y Hy].
  unfold absorb_if, absorb_tag, index. rewrite Hx, Hy.
  by destruct (Nat.odd i), final.
Qed.

Lemma stream_encrypt_body_step (framed : bool) (words : list Field) (i : nat)
    (sponge : Sponge) (cipherText : list Field) (m : Field) :
  length cipherText = i → words !! i = Some m →
  let ks := squeeze (framed_sponge framed i (length words) sponge) in
  let c := Field_add m (fst ks) in
  stream_encrypt_body framed words i (sponge, cipherText) =
  Ok (absorb_tag (cipherText ++ [c]) i (i =? length words - 1) (snd ks),
      cipherText ++ [c]).
Proof.
  intros Hlen Hm ks c. unfold stream_encrypt_body. subst ks c.
  destruct (squeeze _) as [k s1]. rewrite (index_lookup _ _ _ Hm).
  cbn [result_bind fst snd].
  rewrite absorb_if_tag; [done|]. rewrite length_app. cbn [length]. lia.
Qed.

Lemma stream_decrypt_body_step (framed : bool) (c : list Field) (i : nat)
    (sponge : Sponge) (message : list Field) (x : Field) :
  c !! i = Some x →
  let ks := squeeze (framed_sponge framed i (length c) sponge) in
  stream_decrypt_body framed c i (sponge, message) =
  Ok (absorb_tag c i (i =? length c - 1) (snd ks), message ++ [Field_sub x (fst ks)]).
Proof.
  intros Hx ks. unfold stream_decrypt_body. subst ks.
  destruct (squeeze _) as [k s1]. rewrite (index_lookup _ _ _ Hx).
  cbn [result_bind fst snd].
  rewrite absorb_if_tag; [done|]. by eapply lookup_lt_Some.
Qed.

(** The decrypting loop never throws, and its calls follow the schedule. *)
Lemma stream_decrypt_from (framed : bool) (c : list Field) (n : nat) :
  ∀ (i : nat) (sponge : Sponge) (message : list Field),
    i + n = length c →
    ∃ sponge' decrypted,
      for_range i n (stream_decrypt_body framed c) (sponge, message) =
        Ok (sponge', message ++ decrypted) ∧
      length decrypted = n ∧
      sponge_calls sponge' =
        sponge_calls sponge ++ flat_map (chunk_calls framed c) (seq i n).
Proof.
  induction n as [|n IH]; intros i sponge message Hin.
  - exists sponge, []. simpl. by rewrite !app_nil_r.
  - destruct (lookup_lt_is_Some_2 c i ltac:(lia)) as [x Hx].
    cbn [for_range].
    rewrite (stream_decrypt_body_step framed c i sponge message x Hx).
    cbn [result_bind].
    edestruct (IH (S i)) as (sponge' & decrypted & Hrun & Hlen & Hcalls); [lia|].
    eexists sponge', (_ :: decrypted). rewrite Hrun, Hcalls.
    split; [by rewrite <- app_assoc|]. split; [simpl; lia|].
    rewrite absorb_tag_calls, squeeze_calls, framed_sponge_calls.
    cbn [seq flat_map]. unfold chunk_calls.
    rewrite <- !app_assoc. reflexivity.
Qed.

(** The encrypting loop never throws; the decrypting loop, run on what it
    produced from the same sponge, ends in the same sponge, and recovers the
    words when subtraction undoes addition. *)
Lemma stream_encrypt_from (framed : bool) (words : list Field) (n : nat) :
  ∀ (i : nat) (sponge : Sponge) (cipherText : list Field),
    length cipherText = i → i + n = length words →
    ∃ sponge' encrypted,
      for_range i n (stream_encrypt_body framed words) (sponge, cipherText) =
        Ok (sponge', cipherText ++ encrypted) ∧
      length encrypted = n ∧
      ∀ message, ∃ decrypted,
        for_range i n (stream_decrypt_body framed (cipherText ++ encrypted))
          (sponge, message) = Ok (sponge', message ++ decrypted) ∧
        ((∀ a k : Field, Field_sub (Field_add a k) k = a) →
         decrypted = drop i words).
Proof.
  induction n as [|n IH]; intros i sponge cipherText Hlen Hin.
  - exists sponge, []. simpl. rewrite app_nil_r. do 2 (split; [done|]).
    intros message. exists []. rewrite app_nil_r. split; [done|].
    intros _. by rewrite drop_ge by lia.
  - destruct (lookup_lt_is_Some_2 words i ltac:(lia)) as [m Hm].
    cbn [for_range].
    rewrite (stream_encrypt_body_step framed words i sponge cipherText m Hlen Hm).
    cbn [result_bind]. set (ks := squeeze (framed_sponge framed i (length words) sponge)).
    set (c := Field_add m (fst ks)).
    edestruct (IH (S i) (absorb_tag (cipherText ++ [c]) i (i =? length words - 1) (snd ks))
                 (cipherText ++ [c]))
      as (sponge' & encrypted & Hrun & Hlen' & Hdec);
      [rewrite length_app; simpl; lia | lia |].
    exists sponge', (c :: encrypted). rewrite Hrun.
    split; [by rewrite <- app_assoc|]. split; [simpl; lia|].
    intros message.
    assert (length (cipherText ++ c :: encrypted) = length words) as Hfull
      by (rewrite length_app; simpl; lia).
    assert ((cipherText ++ c :: encrypted) !! i = Some c) as Hc
      by (by apply list_lookup_middle).
    rewrite (stream_decrypt_body_step framed _ i sponge message c Hc).
    cbn [result_bind]. rewrite Hfull. fold ks.
    replace (cipherText ++ c :: encrypted) with ((cipherText ++ [c]) ++ encrypted)
      by (by rewrite <- app_assoc).
    rewrite absorb_tag_app by (rewrite length_app; simpl; lia).
    destruct (Hdec (message ++ [Field_sub c (fst ks)])) as (decrypted & Hrun' & Hwords).
    exists (Field_sub c (fst ks) :: decrypted). rewrite Hrun'.
    split; [by rewrite <- app_assoc|].
    intros Hlaw. rewrite (Hwords Hlaw). subst c. rewrite Hlaw.
    symmetry. by apply drop_S.
Qed.

End CoreLemmas.

(** ** The loops of the source refine the shared core *)

Section SourceLoops.
Context {P : Primitives}.

Lemma encrypt_body_core (message : list Field) (i : nat) (st : Sponge * list Field) :
  encrypt_body message i st = stream_encrypt_body false message i st.
Proof. by destruct st. Qed.

Lemma decrypt_body_core (c : list Field) (i : nat) (st : Sponge * list Field) :
  decrypt_body c i st = stream_decrypt_body false c i st.
Proof. by destruct st. Qed.

Lemma encryptV2_body_core (chunks : list (list byte)) (n : nat)
    (st : Sponge * list Field) :
  encryptV2_body chunks n st =
  stream_encrypt_body true (map bytesToWord chunks) n st.
Proof.
  destruct st as [sponge cipherText].
  unfold encryptV2_body, stream_encrypt_body, framed_sponge.
  rewrite length_map. destruct (squeeze _) as [k s1].
  rewrite index_map. by destruct (index chunks n).
Qed.

Lemma decryptV2_body_core (c : list Field) (i : nat) (sponge : Sponge)
    (words : list Field) :
  decryptV2_body c i (sponge, unpack words) =
  (st <- stream_decrypt_body true c i (sponge, words) ;;
   Ok (fst st, unpack (snd st)))%R.
Proof.
  unfold decryptV2_body, stream_decrypt_body, framed_sponge.
  destruct (squeeze _) as [k s1]. destruct (index c i) as [x|]; [|done].
  cbn [result_bind].
  destruct (absorb_if (i mod 2 =? 1) c (i - 1) s1) as [s2|]; [|done].
  cbn [result_bind].
  destruct (absorb_if _ c i s2) as [s3|]; [|done].
  cbn [result_bind fst snd]. unfold unpack. by rewrite map_app.
Qed.

Lemma decryptV2_range_core (c : list Field) (n : nat) :
  ∀ (i : nat) (sponge : Sponge) (words : list Field),
    for_range i n (decryptV2_body c) (sponge, unpack words) =
    (st <- for_range i n (stream_decrypt_body true c) (sponge, words) ;;
     Ok (fst st, unpack (snd st)))%R.
Proof.
  induction n as [|n IH]; intros i sponge words; [done|].
  cbn [for_range]. rewrite decryptV2_body_core.
  destruct (stream_decrypt_body true c i (sponge, words)) as [[s1 words1]|]; [|done].
  cbn [result_bind fst snd]. apply IH.
Qed.

(** The encrypting core, from the start: it returns, the ciphertext is as long
    as the message, the calls follow the schedule, and the decrypting core
    mirrors it. *)
Lemma stream_encrypt_spec (framed : bool) (words : list Field) (sponge : Sponge) :
  ∃ sponge' c,
    for_range 0 (length words) (stream_encrypt_body framed words) (sponge, []) =
      Ok (sponge', c) ∧
    length c = length words ∧
    sponge_calls sponge' = sponge_calls sponge ++ stream_calls framed c ∧
    ∃ decrypted,
      for_range 0 (length c) (stream_decrypt_body framed c) (sponge, []) =
        Ok (sponge', decrypted) ∧
      ((∀ a k : Field, Field_sub (Field_add a k) k = a) → decrypted = words).
Proof.
  destruct (stream_encrypt_from framed words (length words) 0 sponge [])
    as (sponge' & c & Hrun & Hlen & Hdec); [done..|].
  cbn [app] in *. exists sponge', c. split; [done|]. split; [done|].
  destruct (Hdec []) as (decrypted & Hrun' & Hwords). cbn [app] in Hrun'.
  rewrite Hlen. split; [|by exists decrypted].
  destruct (stream_decrypt_from framed c (length words) 0 sponge [])
    as (sponge'' & decrypted' & Hrun'' & _ & Hcalls); [lia|].
  rewrite Hrun' in Hrun''. injection Hrun'' as -> _.
  unfold stream_calls. by rewrite Hlen.
Qed.

Lemma stream_decrypt_spec (framed : bool) (c : list Field) (sponge : Sponge) :
  ∃ sponge' decrypted,
    for_range 0 (length c) (stream_decrypt_body framed c) (sponge, []) =
      Ok (sponge', decrypted) ∧
    length decrypted = length c ∧
    sponge_calls sponge' = sponge_calls sponge ++ stream_calls framed c.
Proof.
  destruct (stream_decrypt_from framed c (length c) 0 sponge [])
    as (sponge' & decrypted & Hrun & Hlen & Hcalls); [done|].
  by exists sponge', decrypted.
Qed.

Lemma encrypt_loop_spec (message : list Field) (sponge : Sponge) :
  ∃ sponge' c,
    encrypt_loop message sponge = Ok (sponge', c) ∧
    length c = length message ∧
    sponge_calls sponge' = sponge_calls sponge ++ stream_calls false c ∧
    ∃ decrypted,
      decrypt_loop c sponge = Ok (sponge', decrypted) ∧
      ((∀ a k : Field, Field_sub (Field_add a k) k = a) → decrypted = message).
Proof.
  destruct (stream_encrypt_spec false message sponge)
    as (sponge' & c & Hrun & Hlen & Hcalls & decrypted & Hdec & Hwords).
  exists sponge', c. unfold encrypt_loop, decrypt_loop.
  rewrite (for_range_ext _ _ _ (encrypt_body_core message)).
  rewrite (for_range_ext _ _ _ (decrypt_body_core c)). eauto 10.
Qed.

Lemma decrypt_loop_spec (c : list Field) (sponge : Sponge) :
  ∃ sponge' message,
    decrypt_loop c sponge = Ok (sponge', message) ∧
    length message = length c ∧
    sponge_calls sponge' = sponge_calls sponge ++ stream_calls false c.
Proof.
  unfold decrypt_loop. rewrite (for_range_ext _ _ _ (decrypt_body_core c)).
  apply stream_decrypt_spec.
Qed.

Lemma decryptV2_loop_spec (c : list Field) (sponge : Sponge) :
  ∃ sponge' words,
    decryptV2_loop c sponge = Ok (sponge', unpack words) ∧
    length words = length c ∧
    sponge_calls sponge' = sponge_calls sponge ++ stream_calls true c.
Proof.
  destruct (stream_decrypt_spec true c sponge)
    as (sponge' & words & Hrun & Hlen & Hcalls).
  exists sponge', words. unfold decryptV2_loop.
  change (@nil (list byte)) with (unpack []).
  rewrite decryptV2_range_core, Hrun. done.
Qed.

Lemma encryptV2_loop_spec (chunks : list (list byte)) (sponge : Sponge) :
  ∃ sponge' c,
    encryptV2_loop chunks sponge = Ok (sponge', c) ∧
    length c = length chunks ∧
    sponge_calls sponge' = sponge_calls sponge ++ stream_calls true c ∧
    ∃ words,
      decryptV2_loop c sponge = Ok (sponge', unpack words) ∧
      ((∀ a k : Field, Field_sub (Field_add a k) k = a) →
       words = map bytesToWord chunks).
Proof.
  destruct (stream_encrypt_spec true (map bytesToWord chunks) sponge)
    as (sponge' & c & Hrun & Hlen & Hcalls & words & Hdec & Hwords).
  rewrite length_map in Hrun, Hlen.
  exists sponge', c. unfold encryptV2_loop, decryptV2_loop.
  rewrite (for_range_ext _ _ _ (encryptV2_body_core chunks)).
  split; [done|]. split; [done|]. split; [done|].
  exists words. split; [|done].
  change (@nil (list byte)) with (unpack []).
  by rewrite decryptV2_range_core, Hdec.
Qed.

End SourceLoops.

(** ** The operations, run in a store *)

Section Operations.
Context {P : Primitives}.

Lemma assertEquals_same (x : Field) : assertEquals x (Some x) = Ok tt.
Proof. unfold assertEquals. by rewrite decide_True. Qed.

Lemma assertEquals_differ (x y : Field) : x ≠ y → assertEquals x (Some y) = Err AssertionError.
Proof. intros Hxy. unfold assertEquals. by rewrite decide_False. Qed.

(** [decrypt] pops the array it is given and computes on what is left. *)
Lemma decrypt_run (c : CipherText) (privateKey : Scalar) (σ : store) (xs : list Field) :
  field_arrays σ !! cipherText c = Some xs →
  decrypt c privateKey σ =
  (decrypt_result (publicKey c) privateKey (removelast xs) (last xs),
   {| field_arrays := <[cipherText c := removelast xs]> (field_arrays σ);
      bytes_objects := bytes_objects σ |}).
Proof.
  intros Hxs.
  unfold decrypt, decrypt_result, shared_sponge, Exec_bind, Array_pop, Array_read,
    Exec_lift, Exec_ret.
  rewrite Hxs. cbn [field_arrays]. rewrite lookup_insert_eq.
  destruct (decrypt_loop _ _) as [[sponge message]|]; [|done].
  cbn [result_bind]. by destruct (assertEquals _ _).
Qed.

Lemma decryptV2_run (c : CipherTextV2) (privateKey : Scalar) (σ : store)
    (xs : list Field) :
  field_arrays σ !! cipherText (base c) = Some xs →
  decryptV2 c privateKey σ =
  (decryptV2_result (publicKey (base c)) privateKey (removelast xs) (last xs)
     (messageLength c),
   {| field_arrays := <[cipherText (base c) := removelast xs]> (field_arrays σ);
      bytes_objects := bytes_objects σ |}).
Proof.
  intros Hxs.
  unfold decryptV2, decryptV2_result, shared_sponge, Exec_bind, Array_pop,
    Array_read, Exec_lift, Exec_ret.
  rewrite Hxs. cbn [field_arrays]. rewrite lookup_insert_eq.
  destruct (decryptV2_loop _ _) as [[sponge message]|]; [|done].
  cbn [result_bind]. by destruct (assertEquals _ _).
Qed.

(** [encrypt] returns a record whose array is new and holds the encrypted
    chunks followed by the tag. *)
Lemma encrypt_run (message : list Field) (otherPublicKey : Group)
    (privateKey : Scalar) (σ : store) :
  ∃ sponge' c,
    encrypt_loop message (shared_sponge otherPublicKey privateKey) = Ok (sponge', c) ∧
    encrypt message otherPublicKey privateKey σ =
    (Ok {| publicKey := Group_scale Group_generator privateKey;
           cipherText := fresh (dom (field_arrays σ)) |},
     {| field_arrays :=
          <[fresh (dom (field_arrays σ)) := c ++ [fst (squeeze sponge')]]>
            (field_arrays σ);
        bytes_objects := bytes_objects σ |}).
Proof.
  destruct (encrypt_loop_spec message (shared_sponge otherPublicKey privateKey))
    as (sponge' & c & Hrun & _).
  exists sponge', c. split; [done|].
  unfold encrypt, Exec_bind, Exec_lift, Array_alloc, Exec_ret.
  fold (shared_sponge otherPublicKey privateKey). rewrite Hrun.
  by destruct (squeeze sponge').
Qed.

Lemma encryptV2_run (message : positive) (otherPublicKey : Group)
    (privateKey : Scalar) (σ : store) (bytes : list byte) :
  bytes_objects σ !! message = Some bytes →
  ∃ sponge' c,
    encryptV2_loop (chunk (padded_bytes bytes) 31)
      (shared_sponge otherPublicKey privateKey) = Ok (sponge', c) ∧
    encryptV2 message otherPublicKey privateKey σ =
    (Ok {| base := {| publicKey := Group_scale Group_generator privateKey;
                      cipherText := fresh (dom (field_arrays σ)) |};
           messageLength := Z.of_nat (length bytes) |},
     {| field_arrays :=
          <[fresh (dom (field_arrays σ)) := c ++ [fst (squeeze sponge')]]>
            (field_arrays σ);
        bytes_objects := <[message := padded_bytes bytes]> (bytes_objects σ) |}).
Proof.
  intros Hbytes.
  destruct (encryptV2_loop_spec (chunk (padded_bytes bytes) 31)
              (shared_sponge otherPublicKey privateKey)) as (sponge' & c & Hrun & _).
  exists sponge', c. split; [done|].
  unfold encryptV2, Bytes_chunk, Exec_bind, Exec_lift, Bytes_get, Bytes_set,
    Array_alloc, Exec_ret.
  rewrite Hbytes. cbn [bytes_objects field_arrays]. rewrite lookup_insert_eq.
  fold (shared_sponge otherPublicKey privateKey) (padded_bytes bytes).
  rewrite Hrun. by destruct (squeeze sponge').
Qed.

End Operations.

(** ** The reference instance meets the laws *)

Module ReferenceLaws.
Import Reference.

Lemma modulus_pos : (0 < modulus)%Z.
Proof. reflexivity. Qed.

Lemma Fp_range (a : Fp) : (0 ≤ `a < modulus)%Z.
Proof. apply (proj2_dsig a). Qed.

Lemma Fp_of_Z_eq (x y : Z) : (x mod modulus = y mod modulus)%Z → Fp_of_Z x = Fp_of_Z y.
Proof. intros Hxy. by apply dsig_eq. Qed.

Lemma Fp_add_sub (a k : Fp) : Fp_sub (Fp_add a k) k = a.
Proof.
  apply dsig_eq. unfold Fp_sub, Fp_add, Fp_of_Z. cbn [proj1_sig].
  rewrite Zminus_mod_idemp_l.
  replace (`a + `k - `k)%Z with (`a) by lia.
  apply Z.mod_small, Fp_range.
Qed.

Lemma scale_comm (a b : Z) :
  scale (scale (Fp_of_Z 1) a) b = scale (scale (Fp_of_Z 1) b) a.
Proof.
  unfold scale. apply Fp_of_Z_eq. unfold Fp_of_Z. cbn [proj1_sig].
  rewrite !Zmult_mod_idemp_l. f_equal. lia.
Qed.

Lemma le_bytes_length (n : nat) : ∀ z, length (le_bytes n z) = n.
Proof. induction n as [|n IH]; intros z; simpl; [done|]. by rewrite IH. Qed.

Lemma byte_of_Z_to_N (b : byte) : byte_of_Z (Z.of_N (Byte.to_N b)) = b.
Proof. unfold byte_of_Z. by rewrite N2Z.id, Byte.of_to_N. Qed.

Lemma byte_range (b : byte) : (0 ≤ Z.of_N (Byte.to_N b) < 256)%Z.
Proof. pose proof (Byte.to_N_bounded b). lia. Qed.

Lemma le_bytes_zero (n : nat) : le_bytes n 0 = replicate n x00.
Proof.
  induction n as [|n IH]; [done|].
  cbn [le_bytes replicate]. by rewrite Zmod_0_l, Zdiv_0_l, IH.
Qed.

Lemma le_value_range (bytes : list byte) :
  (0 ≤ le_value bytes < 256 ^ Z.of_nat (length bytes))%Z.
Proof.
  induction bytes as [|b rest IH]; [simpl; lia|].
  cbn [le_value length]. rewrite Nat2Z.inj_succ, Z.pow_succ_r by lia.
  pose proof (byte_range b). lia.
Qed.

(** Unpacking at least as many bytes as were packed gives them back,
    followed by zeros. *)
Lemma le_bytes_le_value (bytes : list byte) (extra : nat) :
  le_bytes (length bytes + extra) (le_value bytes) = bytes ++ replicate extra x00.
Proof.
  induction bytes as [|b rest IH]; [apply le_bytes_zero|].
  cbn [le_value length Nat.add le_bytes app].
  pose proof (byte_range b) as Hb.
  replace ((Z.of_N (Byte.to_N b) + 256 * le_value rest) mod 256)%Z
    with (Z.of_N (Byte.to_N b))
    by (apply Z.mod_unique with (le_value rest); lia).
  replace ((Z.of_N (Byte.to_N b) + 256 * le_value rest) / 256)%Z
    with (le_value rest)
    by (apply Z.div_unique with (Z.of_N (Byte.to_N b)); lia).
  by rewrite byte_of_Z_to_N, IH.
Qed.

Lemma word_bytes_word (chunk : list byte) :
  length chunk = 31 → word_to_bytes (bytes_to_word chunk) 32 = chunk ++ [x00].
Proof.
  intros Hlen. unfold word_to_bytes, bytes_to_word, Fp_of_Z. cbn [proj1_sig].
  pose proof (le_value_range chunk) as Hrange. rewrite Hlen in Hrange.
  rewrite Z.mod_small.
  - replace 32 with (length chunk + 1) by lia. apply le_bytes_le_value.
  - split; [lia|]. eapply Z.lt_trans; [apply Hrange|]. reflexivity.
Qed.

#[export] Instance laws : PrimitivesLaws primitives.
Proof.
  split.
  - apply Fp_add_sub.
  - apply scale_comm.
  - intros w n. apply le_bytes_length.
  - apply word_bytes_word.
Qed.

End ReferenceLaws.

(** ** Padding and chunking *)

Lemma length_padded_bytes (bytes : list byte) :
  Z.of_nat (length (padded_bytes bytes)) = padded_length (Z.of_nat (length bytes)).
Proof.
  unfold padded_bytes. rewrite length_app, length_replicate.
  pose proof (padded_length_bounds (Z.of_nat (length bytes))). lia.
Qed.

Lemma length_chunk (bytes : list byte) (size : nat) :
  length (chunk bytes size) = length bytes / size.
Proof. unfold chunk. by rewrite length_map, length_seq. Qed.

Lemma chunk_31_lengths (bytes : list byte) :
  Forall (λ ch, length ch = 31) (chunk bytes 31).
Proof.
  apply Forall_forall. intros ch Hin. apply list_elem_of_In in Hin.
  unfold chunk in Hin. apply in_map_iff in Hin as (i & <- & Hi).
  apply in_seq in Hi. rewrite length_take, length_drop.
  pose proof (Nat.div_mod_eq (length bytes) 31). lia.
Qed.

(** The padded message splits into [ceil(length / 31)] chunks. *)
Lemma chunk_padded_count (bytes : list byte) :
  Z.of_nat (length (chunk (padded_bytes bytes) 31)) =
  Math_ceil_div (Z.of_nat (length bytes)) 31.
Proof.
  rewrite length_chunk, Nat2Z.inj_div, length_padded_bytes.
  unfold padded_length. by rewrite Z.div_mul.
Qed.

Lemma Math_ceil_div_multiple (k : Z) : Math_ceil_div (31 * k) 31 = k.
Proof.
  unfold Math_ceil_div. replace (- (31 * k))%Z with ((- k) * 31)%Z by lia.
  rewrite Z.div_mul by lia. lia.
Qed.

(** ** Encrypting, then decrypting *)

Section RoundTrips.
Context {P : Primitives} {L : PrimitivesLaws P}.

Lemma shared_sponge_comm (a b : Scalar) :
  shared_sponge (Group_scale Group_generator a) b =
  shared_sponge (Group_scale Group_generator b) a.
Proof. unfold shared_sponge. by rewrite Group_scale_comm. Qed.

Lemma unpack_packed (chunks : list (list byte)) :
  Forall (λ ch, length ch = 31) chunks →
  unpack (map bytesToWord chunks) = map (λ ch, ch ++ [x00]) chunks.
Proof.
  intros Hlen. unfold unpack. rewrite map_map.
  induction Hlen as [|ch chunks Hch _ IH]; [done|].
  cbn [map]. by rewrite IH, wordToBytes_bytesToWord.
Qed.

(** The legacy pair: [decrypt] recovers what [encrypt] was given. *)
Lemma decrypt_of_encrypt (message : list Field) (sk r : Scalar) (σ : store) :
  ∃ c σ' σ'',
    encrypt message (Group_scale Group_generator sk) r σ = (Ok c, σ') ∧
    decrypt c sk σ' = (Ok message, σ'').
Proof.
  destruct (encrypt_run message (Group_scale Group_generator sk) r σ)
    as (sponge' & ct & Hloop & Henc).
  destruct (encrypt_loop_spec message (shared_sponge (Group_scale Group_generator sk) r))
    as (sponge1 & ct1 & Hloop1 & _ & _ & decrypted & Hdec & Hwords).
  rewrite Hloop in Hloop1. injection Hloop1 as <- <-.
  eexists _, _, _. split; [exact Henc|].
  erewrite decrypt_run by (cbn [field_arrays cipherText]; apply lookup_insert_eq).
  rewrite removelast_last, last_snoc. f_equal.
  unfold decrypt_result. cbn [publicKey].
  rewrite shared_sponge_comm, Hdec. cbn [result_bind].
  rewrite assertEquals_same. cbn [result_bind].
  by rewrite (Hwords Field_add_sub).
Qed.

(** The V2 pair: what [decryptV2] returns for the output of [encryptV2].  Every
    decrypted chunk comes back as its 31 bytes followed by a zero byte, and the
    flattened array is cut by [slice(0, messageLength - n)]. *)
Lemma decryptV2_of_encryptV2 (message : positive) (bytes : list byte)
    (sk r : Scalar) (σ : store) :
  bytes_objects σ !! message = Some bytes →
  ∃ c σ' σ'',
    encryptV2 message (Group_scale Group_generator sk) r σ = (Ok c, σ') ∧
    messageLength c = Z.of_nat (length bytes) ∧
    decryptV2 c sk σ' =
    (Ok (Array_slice
           (concat (map (λ ch, ch ++ [x00]) (chunk (padded_bytes bytes) 31))) 0
           (Z.of_nat (length bytes) - padded_length (Z.of_nat (length bytes)))),
     σ'').
Proof.
  intros Hbytes.
  destruct (encryptV2_run message (Group_scale Group_generator sk) r σ bytes Hbytes)
    as (sponge' & ct & Hloop & Henc).
  destruct (encryptV2_loop_spec (chunk (padded_bytes bytes) 31)
              (shared_sponge (Group_scale Group_generator sk) r))
    as (sponge1 & ct1 & Hloop1 & _ & _ & words & Hdec & Hwords).
  rewrite Hloop in Hloop1. injection Hloop1 as <- <-.
  eexists _, _, _. split; [exact Henc|]. split; [done|].
  erewrite decryptV2_run
    by (cbn [field_arrays cipherText base]; apply lookup_insert_eq).
  rewrite removelast_last, last_snoc. f_equal.
  unfold decryptV2_result. cbn [publicKey base messageLength].
  rewrite shared_sponge_comm, Hdec. cbn [result_bind].
  rewrite assertEquals_same. cbn [result_bind].
  rewrite (Hwords Field_add_sub), unpack_packed by apply chunk_31_lengths.
  done.
Qed.

End RoundTrips.

(** ** The final slice of [decryptV2] *)

Lemma padded_length_fits (messageLength chunks : Z) :
  (0 ≤ messageLength ≤ 31 * chunks → padded_length messageLength ≤ 31 * chunks)%Z.
Proof.
  intros Hml. pose proof (padded_length_bounds messageLength ltac:(lia)).
  pose proof (padded_length_div messageLength). lia.
Qed.

Lemma padded_length_exact (messageLength : Z) :
  (padded_length messageLength = messageLength ↔ messageLength mod 31 = 0)%Z.
Proof.
  split.
  - intros Heq. rewrite <- Heq, padded_length_div, Z.mul_comm. apply Z.mod_mul. lia.
  - intros Hmod. pose proof (Z.div_mod messageLength 31 ltac:(lia)) as Hdiv.
    rewrite Hmod, Z.add_0_r in Hdiv. rewrite Hdiv at 1.
    rewrite padded_length_multiple. lia.
Qed.

(** [slice(0, messageLength - n)] of a flattened array of [chunks] 32-byte
    groups: nothing when [messageLength] is a multiple of 31, and otherwise
    all but the last [n - messageLength] bytes. *)
Lemma sliced_length {A : Type} (flat : list A) (messageLength chunks : Z) :
  Z.of_nat (length flat) = (32 * chunks)%Z →
  (0 < messageLength ≤ 31 * chunks)%Z →
  Z.of_nat (length (Array_slice flat 0 (messageLength - padded_length messageLength))) =
  (if (messageLength mod 31 =? 0)%Z then 0
   else messageLength + (32 * chunks - padded_length messageLength))%Z.
Proof.
  intros Hflat Hml.
  pose proof (padded_length_bounds messageLength ltac:(lia)) as Hpad.
  pose proof (padded_length_fits messageLength chunks ltac:(lia)) as Hfit.
  pose proof (padded_length_exact messageLength) as Hexact.
  destruct (messageLength mod 31 =? 0)%Z eqn:Hmod.
  - apply Z.eqb_eq in Hmod. apply Hexact in Hmod. rewrite Hmod, Z.sub_diag.
    by rewrite Array_slice_0_0.
  - apply Z.eqb_neq in Hmod.
    assert (padded_length messageLength ≠ messageLength) as Hne by tauto.
    replace (messageLength - padded_length messageLength)%Z
      with (- Z.of_nat (Z.to_nat (padded_length messageLength - messageLength)))%Z
      by lia.
    rewrite Array_slice_negative by lia.
    rewrite length_take. lia.
Qed.

(** A message shorter than one chunk: the single 32-byte group, cut by
    [slice(0, messageLength - 31)], keeps one byte too many. *)
Lemma short_message_slice (bytes : list byte) :
  0 < length bytes < 31 →
  Array_slice (concat (map (λ ch, ch ++ [x00]) (chunk (padded_bytes bytes) 31))) 0
    (Z.of_nat (length bytes) - padded_length (Z.of_nat (length bytes))) =
  bytes ++ [x00].
Proof.
  intros Hlen.
  assert (padded_length (Z.of_nat (length bytes)) = 31%Z) as Hn.
  { pose proof (padded_length_bounds (Z.of_nat (length bytes)) ltac:(lia)).
    pose proof (padded_length_div (Z.of_nat (length bytes))). lia. }
  assert (padded_bytes bytes = bytes ++ replicate (31 - length bytes) x00) as Hpad.
  { unfold padded_bytes. rewrite Hn. do 2 f_equal. lia. }
  assert (length (padded_bytes bytes) = 31) as Hlen31.
  { rewrite Hpad, length_app, length_replicate. lia. }
  assert (chunk (padded_bytes bytes) 31 = [padded_bytes bytes]) as ->.
  { unfold chunk. rewrite Hlen31. cbn [Nat.div Nat.divmod fst seq map].
    cbn [Nat.mul]. by rewrite drop_0, take_ge by lia. }
  cbn [map concat]. rewrite app_nil_r, Hn, Hpad.
  replace (Z.of_nat (length bytes) - 31)%Z with (- Z.of_nat (31 - length bytes))%Z
    by lia.
  rewrite Array_slice_negative
    by (rewrite !length_app, length_replicate; cbn [length]; lia).
  rewrite !length_app, length_replicate. cbn [length].
  rewrite <- app_assoc, take_app_ge by lia.
  replace (length bytes + (31 - length bytes) + 1 - (31 - length bytes) - length bytes)
    with 1 by lia.
  destruct (31 - length bytes) as [|k] eqn:Hk; [lia|]. done.
Qed.

Section Lengths.
Context {P : Primitives} {L : PrimitivesLaws P}.

Lemma length_concat_unpack (words : list Field) :
  length (concat (unpack words)) = 32 * length words.
Proof.
  induction words as [|w words IH]; [done|].
  cbn [unpack map concat length]. rewrite length_app, wordToBytes_length.
  unfold unpack in IH. rewrite IH. lia.
Qed.

End Lengths.

(** * The claims *)

Section Claims.
Context {P : Primitives} {L : PrimitivesLaws P}.

(** C4.  In each of the four streaming loops, the calls made on the sponge
    are, chunk index by chunk index: (V2 only) the absorb of the frame bit,
    the squeeze, the absorb of the ciphertext element at [i - 1] exactly when
    [i] is odd, and the absorb of the ciphertext element at [i] exactly when
    [i] is odd or [i] is the final index ([stream_calls], [tag_absorbs]).
    The loops never throw, and the decrypting loop run on the ciphertext that
    the encrypting loop produced, from the same sponge, ends in the very same
    sponge: the schedule is the same on both sides. *)
Theorem absorb_schedule :
  (∀ (message : list Field) (sponge : Sponge), ∃ sponge' c decrypted,
     encrypt_loop message sponge = Ok (sponge', c) ∧
     length c = length message ∧
     sponge_calls sponge' = sponge_calls sponge ++ stream_calls false c ∧
     decrypt_loop c sponge = Ok (sponge', decrypted)) ∧
  (∀ (c : list Field) (sponge : Sponge), ∃ sponge' message,
     decrypt_loop c sponge = Ok (sponge', message) ∧
     sponge_calls sponge' = sponge_calls sponge ++ stream_calls false c) ∧
  (∀ (chunks : list (list byte)) (sponge : Sponge), ∃ sponge' c decrypted,
     encryptV2_loop chunks sponge = Ok (sponge', c) ∧
     length c = length chunks ∧
     sponge_calls sponge' = sponge_calls sponge ++ stream_calls true c ∧
     decryptV2_loop c sponge = Ok (sponge', decrypted)) ∧
  (∀ (c : list Field) (sponge : Sponge), ∃ sponge' message,
     decryptV2_loop c sponge = Ok (sponge', message) ∧
     sponge_calls sponge' = sponge_calls sponge ++ stream_calls true c).
Proof.
  repeat split.
  - intros message sponge.
    destruct (encrypt_loop_spec message sponge)
      as (sponge' & c & ? & ? & ? & decrypted & ? & _).
    by exists sponge', c, decrypted.
  - intros c sponge.
    destruct (decrypt_loop_spec c sponge) as (sponge' & message & ? & _ & ?).
    by exists sponge', message.
  - intros chunks sponge.
    destruct (encryptV2_loop_spec chunks sponge)
      as (sponge' & c & ? & ? & ? & words & ? & _).
    by exists sponge', c, (unpack words).
  - intros c sponge.
    destruct (decryptV2_loop_spec c sponge) as (sponge' & words & ? & _ & ?).
    by exists sponge', (unpack words).
Qed.

(** C5.  For a message of one, two or three field elements and a key pair
    [pk = generator * sk], the legacy [decrypt], applied to what the legacy
    [encrypt] returned, passes the tag check and returns the message. *)
Theorem legacy_round_trip (fields : list Field) (sk r : Scalar) (σ : store) :
  1 ≤ length fields ≤ 3 →
  ∃ c σ' σ'',
    encrypt fields (Group_scale Group_generator sk) r σ = (Ok c, σ') ∧
    decrypt c sk σ' = (Ok fields, σ'').
Proof. intros _. apply decrypt_of_encrypt. Qed.

(** C6.  [decrypt] and [decryptV2] take the last element of the array as the
    received tag and run the loop over the elements before it; the recomputed
    tag is squeezed from the sponge that the loop leaves after all of these
    elements (its calls are the key-exchange absorb followed by the whole
    schedule of the loop); the call returns the plaintext when the two tags
    are equal and throws, returning nothing, when they differ. *)
Theorem tag_checked_after_stream (c : CipherTextV2) (sk : Scalar) (σ : store)
    (body : list Field) (tag : Field) :
  field_arrays σ !! cipherText (base c) = Some (body ++ [tag]) →
  (∃ sponge' message,
     decrypt_loop body (shared_sponge (publicKey (base c)) sk) = Ok (sponge', message) ∧
     sponge_calls sponge' =
       Absorb (Group_x (Group_scale (publicKey (base c)) sk)) :: stream_calls false body ∧
     fst (decrypt (base c) sk σ) =
       if decide (fst (squeeze sponge') = tag) then Ok message
       else Err AssertionError) ∧
  (∃ sponge' message,
     decryptV2_loop body (shared_sponge (publicKey (base c)) sk) = Ok (sponge', message) ∧
     sponge_calls sponge' =
       Absorb (Group_x (Group_scale (publicKey (base c)) sk)) :: stream_calls true body ∧
     fst (decryptV2 c sk σ) =
       if decide (fst (squeeze sponge') = tag)
       then Ok (Array_slice (concat message) 0
                  (messageLength c - padded_length (messageLength c)))
       else Err AssertionError).
Proof.
  intros Harray. split.
  - destruct (decrypt_loop_spec body (shared_sponge (publicKey (base c)) sk))
      as (sponge' & message & Hloop & _ & Hcalls).
    exists sponge', message. split; [done|]. split; [done|].
    rewrite (decrypt_run _ _ _ _ Harray), removelast_last, last_snoc.
    cbn [fst]. unfold decrypt_result, assertEquals. rewrite Hloop. cbn [result_bind].
    by destruct (decide _).
  - destruct (decryptV2_loop_spec body (shared_sponge (publicKey (base c)) sk))
      as (sponge' & words & Hloop & _ & Hcalls).
    exists sponge', (unpack words). split; [done|]. split; [done|].
    rewrite (decryptV2_run _ _ _ _ Harray), removelast_last, last_snoc.
    cbn [fst]. unfold decryptV2_result, assertEquals. rewrite Hloop. cbn [result_bind].
    by destruct (decide _).
Qed.

(** C8.  For every message and recipient key, [encryptV2] returns a record
    with [messageLength <= 31 * (cipherText.length - 1)]. *)
Theorem encryptV2_messageLength_invariant (message : positive) (bytes : list byte)
    (otherPublicKey : Group) (r : Scalar) (σ : store) :
  bytes_objects σ !! message = Some bytes →
  ∃ c σ' ct,
    encryptV2 message otherPublicKey r σ = (Ok c, σ') ∧
    field_arrays σ' !! cipherText (base c) = Some ct ∧
    (messageLength c ≤ 31 * (Z.of_nat (length ct) - 1))%Z.
Proof.
  intros Hbytes.
  destruct (encryptV2_run message otherPublicKey r σ bytes Hbytes)
    as (sponge' & ct & Hloop & Henc).
  destruct (encryptV2_loop_spec (chunk (padded_bytes bytes) 31)
              (shared_sponge otherPublicKey r)) as (? & ? & Hloop' & Hlen & _).
  rewrite Hloop in Hloop'. injection Hloop' as <- <-.
  eexists _, _, _. split; [exact Henc|].
  cbn [field_arrays cipherText base messageLength].
  split; [apply lookup_insert_eq|].
  rewrite length_app, Hlen. cbn [length].
  pose proof (chunk_padded_count bytes) as Hcount.
  pose proof (Math_ceil_div_bounds (Z.of_nat (length bytes)) ltac:(lia)). lia.
Qed.

(** C9.  [decrypt] and [decryptV2] pop the tag off the array that the caller
    passed: after the call, whether it returned or threw, the caller's array
    is the old one without its last element, one element shorter; a second
    call on the same record therefore starts from a different array, takes
    the last encrypted chunk as the tag and streams over one element fewer. *)
Theorem decrypt_pops_caller_array (c : CipherTextV2) (sk : Scalar) (σ : store)
    (xs : list Field) :
  field_arrays σ !! cipherText (base c) = Some xs → xs ≠ [] →
  length (removelast xs) = length xs - 1 ∧ removelast xs ≠ xs ∧
  (let σ1 := snd (decrypt (base c) sk σ) in
   field_arrays σ1 !! cipherText (base c) = Some (removelast xs) ∧
   decrypt (base c) sk σ1 =
     (decrypt_result (publicKey (base c)) sk
        (removelast (removelast xs)) (last (removelast xs)),
      {| field_arrays :=
           <[cipherText (base c) := removelast (removelast xs)]> (field_arrays σ1);
         bytes_objects := bytes_objects σ1 |})) ∧
  (let σ1 := snd (decryptV2 c sk σ) in
   field_arrays σ1 !! cipherText (base c) = Some (removelast xs) ∧
   decryptV2 c sk σ1 =
     (decryptV2_result (publicKey (base c)) sk
        (removelast (removelast xs)) (last (removelast xs)) (messageLength c),
      {| field_arrays :=
           <[cipherText (base c) := removelast (removelast xs)]> (field_arrays σ1);
         bytes_objects := bytes_objects σ1 |})).
Proof.
  intros Harray Hne.
  assert (length (removelast xs) = length xs - 1) as Hlen.
  { destruct (exists_last Hne) as (body & tag & ->).
    rewrite removelast_last, length_app. cbn [length]. lia. }
  split; [done|]. split.
  { intros Heq. rewrite Heq in Hlen. destruct xs; [done|]. cbn [length] in Hlen. lia. }
  split; cbn zeta.
  - rewrite (decrypt_run _ _ _ _ Harray). cbn [snd field_arrays].
    split; [apply lookup_insert_eq|].
    by rewrite (decrypt_run _ _ _ (removelast xs))
      by (cbn [field_arrays]; apply lookup_insert_eq).
  - rewrite (decryptV2_run _ _ _ _ Harray). cbn [snd field_arrays].
    split; [apply lookup_insert_eq|].
    by rewrite (decryptV2_run _ _ _ (removelast xs))
      by (cbn [field_arrays]; apply lookup_insert_eq).
Qed.

(** C10.  [encryptV2] assigns the zero-padded bytes to the [bytes] property of
    the [Bytes] object it was passed: after the call the caller's object holds
    the original bytes followed by [n - messageLength] zero bytes, a multiple
    of 31 bytes in all, the least one that is not below the original length;
    unless that length was a multiple of 31 already, these are no longer the
    original bytes. *)
Theorem encryptV2_overwrites_message_bytes (message : positive) (bytes : list byte)
    (otherPublicKey : Group) (r : Scalar) (σ : store) :
  bytes_objects σ !! message = Some bytes →
  let n := padded_length (Z.of_nat (length bytes)) in
  let padded := bytes ++ replicate (Z.to_nat (n - Z.of_nat (length bytes))) x00 in
  bytes_objects (snd (encryptV2 message otherPublicKey r σ)) !! message = Some padded ∧
  Z.of_nat (length padded) = n ∧
  (n mod 31 = 0)%Z ∧
  (Z.of_nat (length bytes) ≤ n < Z.of_nat (length bytes) + 31)%Z ∧
  (length bytes mod 31 ≠ 0 → padded ≠ bytes).
Proof.
  intros Hbytes n padded.
  destruct (encryptV2_run message otherPublicKey r σ bytes Hbytes)
    as (sponge' & ct & _ & Henc).
  rewrite Henc. cbn [snd bytes_objects].
  pose proof (length_padded_bytes bytes) as Hlen.
  pose proof (padded_length_bounds (Z.of_nat (length bytes)) ltac:(lia)) as Hbounds.
  fold n in Hlen, Hbounds. change (padded_bytes bytes) with padded in Hlen.
  split; [apply lookup_insert_eq|]. split; [done|].
  split; [subst n; rewrite padded_length_div, Z.mul_comm; apply Z.mod_mul; lia|].
  split; [done|].
  intros Hmod Heq. rewrite Heq in Hlen.
  assert (Z.of_nat (length bytes) mod 31 = 0)%Z as Hzero
    by (by apply padded_length_exact).
  apply Hmod. rewrite <- (Nat2Z.id (length bytes mod 31)), Nat2Z.inj_mod.
  change (Z.of_nat 31) with 31%Z. by rewrite Hzero.
Qed.

(** C1 (the code departs from the claim).  For every non-empty message and
    key pair [pk = generator * sk], [decryptV2] applied to what [encryptV2]
    returned passes the tag check but does not return the message: it returns
    nothing at all when the length is a multiple of 31, the message followed
    by a zero byte when the length is below 31, and in general
    [messageLength + ceil(messageLength / 31)] bytes. *)
Theorem decryptV2_of_encryptV2_differs (message : positive) (bytes : list byte)
    (sk r : Scalar) (σ : store) :
  bytes_objects σ !! message = Some bytes → 0 < length bytes →
  ∃ c σ' out σ'',
    encryptV2 message (Group_scale Group_generator sk) r σ = (Ok c, σ') ∧
    decryptV2 c sk σ' = (Ok out, σ'') ∧
    out ≠ bytes ∧
    Z.of_nat (length out) =
      (if (Z.of_nat (length bytes) mod 31 =? 0)%Z then 0
       else Z.of_nat (length bytes) + Math_ceil_div (Z.of_nat (length bytes)) 31)%Z ∧
    (length bytes mod 31 = 0 → out = []) ∧
    (length bytes < 31 → out = bytes ++ [x00]).
Proof.
  intros Hbytes Hpos.
  destruct (decryptV2_of_encryptV2 message bytes sk r σ Hbytes)
    as (c & σ' & σ'' & Henc & _ & Hdec).
  eexists c, σ', _, σ''. split; [exact Henc|]. split; [exact Hdec|].
  set (flat := concat (map (λ ch, ch ++ [x00]) (chunk (padded_bytes bytes) 31))).
  set (len := Z.of_nat (length bytes)).
  pose proof (Math_ceil_div_bounds len ltac:(lia)) as Hceil.
  assert (Z.of_nat (length flat) = 32 * Math_ceil_div len 31)%Z as Hflat.
  { subst flat. rewrite <- unpack_packed by apply chunk_31_lengths.
    rewrite length_concat_unpack, length_map, Nat2Z.inj_mul, chunk_padded_count.
    done. }
  pose proof (sliced_length flat len (Math_ceil_div len 31) Hflat ltac:(lia)) as Hout.
  rewrite padded_length_div in Hout at 2.
  assert (Z.of_nat (length (Array_slice flat 0 (len - padded_length len))) =
          (if (len mod 31 =? 0)%Z then 0 else len + Math_ceil_div len 31)%Z) as Hout'.
  { rewrite Hout. destruct (len mod 31 =? 0)%Z; lia. }
  split.
  { intros Heq. rewrite Heq in Hout'. fold len in Hout'.
    destruct (len mod 31 =? 0)%Z; lia. }
  split; [exact Hout'|]. split.
  - intros Hmod.
    assert (len mod 31 = 0)%Z as Hmod'.
    { subst len. change 31%Z with (Z.of_nat 31). by rewrite <- Nat2Z.inj_mod, Hmod. }
    apply padded_length_exact in Hmod'. rewrite Hmod', Z.sub_diag.
    apply Array_slice_0_0.
  - intros Hshort. apply short_message_slice. lia.
Qed.

(** C2 (as amended).  For a message whose length is a positive multiple of
    31, [encryptV2] appends no padding, the padding length
    [ceil(length / 31) * 31 - length] being zero: the caller's object keeps
    the bytes it had, and the returned [cipherText] has [length / 31 + 1]
    elements, the chunks and the tag. *)
Theorem encryptV2_multiple_of_31_length (message : positive) (bytes : list byte)
    (otherPublicKey : Group) (r : Scalar) (σ : store) :
  bytes_objects σ !! message = Some bytes →
  0 < length bytes → length bytes mod 31 = 0 →
  ∃ c σ' ct,
    encryptV2 message otherPublicKey r σ = (Ok c, σ') ∧
    field_arrays σ' !! cipherText (base c) = Some ct ∧
    length ct = length bytes / 31 + 1 ∧
    bytes_objects σ' !! message = Some bytes.
Proof.
  intros Hbytes Hpos Hmod.
  destruct (encryptV2_run message otherPublicKey r σ bytes Hbytes)
    as (sponge' & ct & Hloop & Henc).
  destruct (encryptV2_loop_spec (chunk (padded_bytes bytes) 31)
              (shared_sponge otherPublicKey r)) as (? & ? & Hloop' & Hlen & _).
  rewrite Hloop in Hloop'. injection Hloop' as <- <-.
  assert (padded_bytes bytes = bytes) as Hpad.
  { unfold padded_bytes.
    assert (Z.of_nat (length bytes) mod 31 = 0)%Z as Hmod'.
    { change 31%Z with (Z.of_nat 31). by rewrite <- Nat2Z.inj_mod, Hmod. }
    apply padded_length_exact in Hmod'. rewrite Hmod', Z.sub_diag.
    apply app_nil_r. }
  rewrite Hpad in *.
  eexists _, _, _. split; [exact Henc|].
  cbn [field_arrays bytes_objects cipherText base].
  split; [apply lookup_insert_eq|]. split.
  - rewrite length_app, Hlen, length_chunk. done.
  - apply lookup_insert_eq.
Qed.

(** C3 (the code departs from the claim).  For a ciphertext with
    [0 < messageLength <= 31 * chunks] whose tag check passes, [decryptV2]
    returns the flattened 32-byte groups cut by
    [slice(0, messageLength - n)]: no byte when [messageLength] is a multiple
    of 31, and [messageLength + 32 * chunks - n] bytes otherwise; this is
    never [messageLength] bytes. *)
Theorem decryptV2_returned_length (c : CipherTextV2) (sk : Scalar) (σ : store)
    (body : list Field) (tag : Field) (sponge' : Sponge) (message : list (list byte)) :
  field_arrays σ !! cipherText (base c) = Some (body ++ [tag]) →
  decryptV2_loop body (shared_sponge (publicKey (base c)) sk) = Ok (sponge', message) →
  fst (squeeze sponge') = tag →
  (0 < messageLength c ≤ 31 * Z.of_nat (length body))%Z →
  ∃ out,
    fst (decryptV2 c sk σ) = Ok out ∧
    out = Array_slice (concat message) 0
            (messageLength c - padded_length (messageLength c)) ∧
    Z.of_nat (length out) =
      (if (messageLength c mod 31 =? 0)%Z then 0
       else messageLength c +
            (32 * Z.of_nat (length body) - padded_length (messageLength c)))%Z ∧
    Z.of_nat (length out) ≠ messageLength c.
Proof.
  intros Harray Hloop Htag Hml.
  destruct (decryptV2_loop_spec body (shared_sponge (publicKey (base c)) sk))
    as (? & words & Hloop' & Hlen & _).
  rewrite Hloop in Hloop'. injection Hloop' as <- ->.
  eexists. split.
  { rewrite (decryptV2_run _ _ _ _ Harray), removelast_last, last_snoc.
    cbn [fst]. unfold decryptV2_result. rewrite Hloop. cbn [result_bind].
    rewrite Htag, assertEquals_same. done. }
  split; [done|].
  assert (Z.of_nat (length (concat (unpack words))) = 32 * Z.of_nat (length body))%Z
    as Hflat by (rewrite length_concat_unpack, Hlen; lia).
  pose proof (sliced_length _ _ _ Hflat Hml) as Hout.
  split; [exact Hout|]. rewrite Hout.
  pose proof (padded_length_fits (messageLength c) (Z.of_nat (length body)) ltac:(lia)).
  destruct (messageLength c mod 31 =? 0)%Z; lia.
Qed.

(** C7 (as amended).  [decryptV2] makes no check of [messageLength] against
    the number of chunks and raises no length error.  For an array of any
    length, the empty one included, and an integer [messageLength] above
    [31 * (cipherText.length - 1)]: the call throws the [TypeError] of the
    missing tag when the array is empty, the assertion error when the tag
    recomputed over all elements but the last differs from the last, and
    otherwise returns bytes, a prefix of the flattened decrypted chunks, so
    that nothing is read out of bounds.  Which prefix is not stated here.
    [messageLength] is taken up to [2 ^ 53 - 31]: there
    [Math.ceil(messageLength / 31) * 31] and its difference with
    [messageLength] stay within the integers that a double holds exactly, so
    that [padded_length] is what the code computes. *)
Theorem decryptV2_checks_no_length (c : CipherTextV2) (sk : Scalar) (σ : store)
    (xs : list Field) :
  field_arrays σ !! cipherText (base c) = Some xs →
  (31 * (Z.of_nat (length xs) - 1) < messageLength c ≤ 2 ^ 53 - 31)%Z →
  ∃ sponge' message,
    decryptV2_loop (removelast xs) (shared_sponge (publicKey (base c)) sk) =
      Ok (sponge', message) ∧
    match last xs with
    | None => fst (decryptV2 c sk σ) = Err TypeError
    | Some tag =>
        if decide (fst (squeeze sponge') = tag)
        then ∃ out, fst (decryptV2 c sk σ) = Ok out ∧ out `prefix_of` concat message
        else fst (decryptV2 c sk σ) = Err AssertionError
    end.
Proof.
  intros Harray _.
  destruct (decryptV2_loop_spec (removelast xs) (shared_sponge (publicKey (base c)) sk))
    as (sponge' & words & Hloop & _ & _).
  exists sponge', (unpack words). split; [done|].
  rewrite (decryptV2_run _ _ _ _ Harray). cbn [fst].
  unfold decryptV2_result, assertEquals. rewrite Hloop. cbn [result_bind].
  destruct (last xs) as [tag|]; [|done].
  destruct (decide (fst (squeeze sponge') = tag)); cbn [result_bind]; [|done].
  eexists. split; [done|].
  unfold Array_slice.
  replace (relative_index (Z.of_nat (length (concat (unpack words)))) 0) with 0%Z
    by (unfold relative_index; cbn [Z.ltb Z.compare]; lia).
  cbn [Z.to_nat]. rewrite drop_0.
  eexists. symmetry. apply take_drop.
Qed.

(** The empty message is the one that round-trips: [encryptV2] produces the
    tag alone, and [decryptV2] returns the empty byte string. *)
Theorem decryptV2_of_encryptV2_empty (message : positive) (sk r : Scalar) (σ : store) :
  bytes_objects σ !! message = Some [] →
  ∃ c σ' σ'',
    encryptV2 message (Group_scale Group_generator sk) r σ = (Ok c, σ') ∧
    decryptV2 c sk σ' = (Ok [], σ'').
Proof.
  intros Hbytes.
  destruct (decryptV2_of_encryptV2 message [] sk r σ Hbytes)
    as (c & σ' & σ'' & Henc & _ & Hdec).
  exists c, σ', σ''. split; [exact Henc|]. rewrite Hdec. do 2 f_equal.
Qed.

End Claims.

(** * Closed examples on the reference instance *)

Section Examples.
Import Reference ReferenceLaws.

(** [encryptV2] of 31 letters, then [decryptV2]: the call returns, with no
    byte at all. *)
Lemma decryptV2_of_encryptV2_differs_witness :
  bytes_objects (store_with (letters 31)) !! 1%positive = Some (letters 31) ∧
  0 < length (letters 31) ∧
  ∃ c σ' σ'',
    encryptV2 1%positive (Group_scale Group_generator recipient) ephemeral
      (store_with (letters 31)) = (Ok c, σ') ∧
    decryptV2 c recipient σ' = (Ok [], σ'') ∧
    [] ≠ letters 31.
Proof.
  split; [reflexivity|]. split; [cbn; lia|].
  destruct (decryptV2_of_encryptV2_differs (P := primitives) 1%positive (letters 31) recipient
              ephemeral (store_with (letters 31)) eq_refl ltac:(cbn; lia))
    as (c & σ' & out & σ'' & Henc & Hdec & Hne & _ & Hnil & _).
  rewrite (Hnil eq_refl) in Hdec, Hne. by exists c, σ', σ''.
Defined.

(** C2, the claim refuted: for 31 letters the padding is empty and the
    [cipherText] has two elements, one chunk and the tag, not three. *)
Lemma encryptV2_31_letters_counterexample :
  fst (encryptV2 1%positive recipient_key ephemeral (store_with (letters 31))) =
    Ok (sent 31) ∧
  field_arrays
    (snd (encryptV2 1%positive recipient_key ephemeral (store_with (letters 31))))
    !! 1%positive = Some [chunk_of_31_letters; tag_of_31_letters] ∧
  length [chunk_of_31_letters; tag_of_31_letters] ≠ length (letters 31) / 31 + 2.
Proof. split; [reflexivity|]. split; [reflexivity|]. cbn. lia. Qed.

Lemma encryptV2_multiple_of_31_length_witness :
  bytes_objects (store_with (letters 62)) !! 1%positive = Some (letters 62) ∧
  0 < length (letters 62) ∧ length (letters 62) mod 31 = 0 ∧
  ∃ c σ' ct,
    encryptV2 1%positive recipient_key ephemeral (store_with (letters 62)) = (Ok c, σ') ∧
    field_arrays σ' !! cipherText (base c) = Some ct ∧
    length ct = length (letters 62) / 31 + 1 ∧
    bytes_objects σ' !! 1%positive = Some (letters 62).
Proof.
  split; [reflexivity|]. split; [cbn; lia|]. split; [reflexivity|].
  apply (encryptV2_multiple_of_31_length (P := primitives) 1%positive (letters 62) recipient_key
           ephemeral (store_with (letters 62)));
    [reflexivity | cbn; lia | reflexivity].
Defined.

(** The ciphertext of 31 letters, with its valid tag and
    [messageLength = 31]: [decryptV2] returns, and returns no byte. *)
Lemma decryptV2_returned_length_witness :
  field_arrays (store_with_array [chunk_of_31_letters; tag_of_31_letters])
    !! cipherText (base (sent 31)) = Some ([chunk_of_31_letters] ++ [tag_of_31_letters]) ∧
  (0 < messageLength (sent 31) ≤ 31 * Z.of_nat (length [chunk_of_31_letters]))%Z ∧
  ∃ out,
    fst (decryptV2 (sent 31) recipient
           (store_with_array [chunk_of_31_letters; tag_of_31_letters])) = Ok out ∧
    Z.of_nat (length out) = 0%Z ∧
    Z.of_nat (length out) ≠ messageLength (sent 31).
Proof.
  split; [reflexivity|]. split; [cbn; lia|].
  edestruct (decryptV2_returned_length (P := primitives) (sent 31) recipient
               (store_with_array [chunk_of_31_letters; tag_of_31_letters])
               [chunk_of_31_letters] tag_of_31_letters)
    as (out & Hrun & _ & Hlen & Hne);
    [reflexivity | reflexivity | reflexivity | cbn; lia |].
  exists out. split; [exact Hrun|]. split; [exact Hlen|exact Hne].
Defined.

Lemma legacy_round_trip_witness :
  1 ≤ length [Fp_of_Z 7; Fp_of_Z 8; Fp_of_Z 9] ≤ 3 ∧
  ∃ c σ' σ'',
    encrypt [Fp_of_Z 7; Fp_of_Z 8; Fp_of_Z 9]
      (Group_scale Group_generator recipient) ephemeral (store_with []) = (Ok c, σ') ∧
    decrypt c recipient σ' = (Ok [Fp_of_Z 7; Fp_of_Z 8; Fp_of_Z 9], σ'').
Proof.
  split; [cbn; lia|].
  apply (legacy_round_trip (P := primitives) [Fp_of_Z 7; Fp_of_Z 8; Fp_of_Z 9] recipient ephemeral
           (store_with [])).
  cbn. lia.
Defined.

(** An array of two chunks and a tag that does not match: both decrypting
    functions compare the tags after the loop over the two chunks. *)
Lemma tag_checked_after_stream_witness :
  field_arrays (store_with_array [Fp_of_Z 1; Fp_of_Z 2; Fp_of_Z 3])
    !! cipherText (base (sent 31)) = Some ([Fp_of_Z 1; Fp_of_Z 2] ++ [Fp_of_Z 3]) ∧
  (∃ sponge' message,
     decrypt_loop [Fp_of_Z 1; Fp_of_Z 2]
       (shared_sponge (publicKey (base (sent 31))) recipient) = Ok (sponge', message) ∧
     sponge_calls sponge' =
       Absorb (Group_x (Group_scale (publicKey (base (sent 31))) recipient))
       :: stream_calls false [Fp_of_Z 1; Fp_of_Z 2] ∧
     fst (decrypt (base (sent 31)) recipient
            (store_with_array [Fp_of_Z 1; Fp_of_Z 2; Fp_of_Z 3])) =
       if decide (fst (squeeze sponge') = Fp_of_Z 3) then Ok message
       else Err AssertionError) ∧
  (∃ sponge' message,
     decryptV2_loop [Fp_of_Z 1; Fp_of_Z 2]
       (shared_sponge (publicKey (base (sent 31))) recipient) = Ok (sponge', message) ∧
     sponge_calls sponge' =
       Absorb (Group_x (Group_scale (publicKey (base (sent 31))) recipient))
       :: stream_calls true [Fp_of_Z 1; Fp_of_Z 2] ∧
     fst (decryptV2 (sent 31) recipient
            (store_with_array [Fp_of_Z 1; Fp_of_Z 2; Fp_of_Z 3])) =
       if decide (fst (squeeze sponge') = Fp_of_Z 3)
       then Ok (Array_slice (concat message) 0
                  (messageLength (sent 31) - padded_length (messageLength (sent 31))))
       else Err AssertionError).
Proof.
  split; [reflexivity|].
  apply (tag_checked_after_stream (P := primitives) (sent 31) recipient
           (store_with_array [Fp_of_Z 1; Fp_of_Z 2; Fp_of_Z 3])
           [Fp_of_Z 1; Fp_of_Z 2] (Fp_of_Z 3)).
  reflexivity.
Defined.

(** C7, the claim refuted: the ciphertext of one letter holds one chunk, so
    [messageLength = 32] exceeds [31 * 1]; [decryptV2] reports no error and
    returns two bytes. *)
Lemma decryptV2_oversized_messageLength_counterexample :
  length <$>
    (field_arrays
       (snd (encryptV2 1%positive recipient_key ephemeral (store_with (letters 1))))
       !! cipherText (base (sent 32))) = Some 2 ∧
  (messageLength (sent 32) > 31 * (2 - 1))%Z ∧
  fst (decryptV2 (sent 32) recipient
         (snd (encryptV2 1%positive recipient_key ephemeral (store_with (letters 1))))) =
    Ok [x61; x00].
Proof. split; [reflexivity|]. split; [cbn; lia|]. reflexivity. Qed.

Lemma decryptV2_checks_no_length_witness :
  field_arrays (store_with_array [Fp_of_Z 1; Fp_of_Z 2])
    !! cipherText (base (sent 40)) = Some [Fp_of_Z 1; Fp_of_Z 2] ∧
  (31 * (Z.of_nat (length [Fp_of_Z 1; Fp_of_Z 2]) - 1) < messageLength (sent 40)
   ≤ 2 ^ 53 - 31)%Z ∧
  ∃ sponge' message,
    decryptV2_loop (removelast [Fp_of_Z 1; Fp_of_Z 2])
      (shared_sponge (publicKey (base (sent 40))) recipient) = Ok (sponge', message) ∧
    match last [Fp_of_Z 1; Fp_of_Z 2] with
    | None =>
        fst (decryptV2 (sent 40) recipient (store_with_array [Fp_of_Z 1; Fp_of_Z 2])) =
          Err TypeError
    | Some tag =>
        if decide (fst (squeeze sponge') = tag)
        then ∃ out,
               fst (decryptV2 (sent 40) recipient
                      (store_with_array [Fp_of_Z 1; Fp_of_Z 2])) = Ok out ∧
               out `prefix_of` concat message
        else fst (decryptV2 (sent 40) recipient
                    (store_with_array [Fp_of_Z 1; Fp_of_Z 2])) = Err AssertionError
    end.
Proof.
  split; [reflexivity|]. split; [split; [reflexivity | by vm_compute]|].
  apply (decryptV2_checks_no_length (P := primitives) (sent 40) recipient
           (store_with_array [Fp_of_Z 1; Fp_of_Z 2]) [Fp_of_Z 1; Fp_of_Z 2]);
    [reflexivity | split; [reflexivity | by vm_compute]].
Defined.

Lemma encryptV2_messageLength_invariant_witness :
  bytes_objects (store_with (letters 32)) !! 1%positive = Some (letters 32) ∧
  ∃ c σ' ct,
    encryptV2 1%positive recipient_key ephemeral (store_with (letters 32)) = (Ok c, σ') ∧
    field_arrays σ' !! cipherText (base c) = Some ct ∧
    (messageLength c ≤ 31 * (Z.of_nat (length ct) - 1))%Z.
Proof.
  split; [reflexivity|].
  apply (encryptV2_messageLength_invariant (P := primitives) 1%positive (letters 32)
           recipient_key ephemeral (store_with (letters 32))).
  reflexivity.
Defined.

(** An array of three elements: after one call it holds two, after a second
    call one, for [decrypt] and for [decryptV2] alike. *)
Lemma decrypt_pops_caller_array_witness :
  field_arrays (store_with_array [Fp_of_Z 1; Fp_of_Z 2; Fp_of_Z 3])
    !! cipherText (base (sent 31)) = Some [Fp_of_Z 1; Fp_of_Z 2; Fp_of_Z 3] ∧
  [Fp_of_Z 1; Fp_of_Z 2; Fp_of_Z 3] ≠ [] ∧
  field_arrays
    (snd (decrypt (base (sent 31)) recipient
            (store_with_array [Fp_of_Z 1; Fp_of_Z 2; Fp_of_Z 3])))
    !! 1%positive = Some [Fp_of_Z 1; Fp_of_Z 2] ∧
  field_arrays
    (snd (decryptV2 (sent 31) recipient
            (store_with_array [Fp_of_Z 1; Fp_of_Z 2; Fp_of_Z 3])))
    !! 1%positive = Some [Fp_of_Z 1; Fp_of_Z 2] ∧
  field_arrays
    (snd (decrypt (base (sent 31)) recipient
            (snd (decrypt (base (sent 31)) recipient
                    (store_with_array [Fp_of_Z 1; Fp_of_Z 2; Fp_of_Z 3])))))
    !! 1%positive = Some [Fp_of_Z 1].
Proof.
  split; [reflexivity|]. split; [done|].
  destruct (decrypt_pops_caller_array (P := primitives) (sent 31) recipient
              (store_with_array [Fp_of_Z 1; Fp_of_Z 2; Fp_of_Z 3])
              [Fp_of_Z 1; Fp_of_Z 2; Fp_of_Z 3] eq_refl ltac:(done))
    as (_ & _ & (Hfirst & Hsecond) & (HfirstV2 & _)).
  split; [exact Hfirst|]. split; [exact HfirstV2|].
  rewrite Hsecond. reflexivity.
Defined.

(** A message of 32 letters: the caller's object holds 62 bytes afterwards. *)
Lemma encryptV2_overwrites_message_bytes_witness :
  bytes_objects (store_with (letters 32)) !! 1%positive = Some (letters 32) ∧
  bytes_objects
    (snd (encryptV2 1%positive recipient_key ephemeral (store_with (letters 32))))
    !! 1%positive = Some (letters 32 ++ replicate 30 x00) ∧
  length (letters 32 ++ replicate 30 x00) = 62 ∧
  letters 32 ++ replicate 30 x00 ≠ letters 32.
Proof.
  split; [reflexivity|].
  destruct (encryptV2_overwrites_message_bytes (P := primitives) 1%positive
              (letters 32) recipient_key ephemeral (store_with (letters 32)) eq_refl)
    as (Hstore & _ & _ & _ & Hne).
  split; [exact Hstore|]. split; [reflexivity|].
  apply Hne. cbn. lia.
Defined.

Lemma decryptV2_of_encryptV2_empty_witness :
  bytes_objects (store_with []) !! 1%positive = Some [] ∧
  ∃ c σ' σ'',
    encryptV2 1%positive (Group_scale Group_generator recipient) ephemeral
      (store_with []) = (Ok c, σ') ∧
    decryptV2 c recipient σ' = (Ok [], σ'').
Proof.
  split; [reflexivity|].
  apply (decryptV2_of_encryptV2_empty (P := primitives) 1%positive recipient
           ephemeral (store_with [])).
  reflexivity.
Defined.

End Examples.

(** * More about the four operations *)

(** ** Every ciphertext element is absorbed once *)

Section Binding.
Context {P : Primitives}.

Lemma absorbed_app (calls calls' : list sponge_call) :
  absorbed (calls ++ calls') = absorbed calls ++ absorbed calls'.
Proof. unfold absorbed. apply flat_map_app. Qed.

Lemma absorbed_flat_map {A : Type} (f : A → list sponge_call) (l : list A) :
  absorbed (flat_map f l) = flat_map (λ a, absorbed (f a)) l.
Proof.
  induction l as [|a l IH]; [done|].
  cbn [flat_map]. by rewrite absorbed_app, IH.
Qed.

Lemma absorbed_map_Absorb (c : list Field) : absorbed (map Absorb c) = c.
Proof.
  induction c as [|x c IH]; [done|].
  unfold absorbed in *. cbn [map flat_map app]. by rewrite IH.
Qed.

(** After the iterations [0 .. k - 1], the re-absorption has covered the
    ciphertext up to the last completed pair, and all of it at the end. *)
Lemma tag_absorbs_prefix (c : list Field) (k : nat) :
  k ≤ length c →
  flat_map (tag_absorbs c) (seq 0 k) =
  map Absorb (take (if k =? length c then k else 2 * (k / 2)) c).
Proof.
  induction k as [|k IH]; intros Hk.
  - destruct (0 =? length c); by rewrite take_0.
  - rewrite seq_S, flat_map_app, IH by lia.
    replace (k =? length c) with false by (symmetry; apply Nat.eqb_neq; lia).
    cbn [Nat.add flat_map]. rewrite app_nil_r.
    destruct (lookup_lt_is_Some_2 c k ltac:(lia)) as [x Hx].
    pose proof (Nat.div_mod_eq k 2) as Hdiv.
    pose proof (Nat.mod_upper_bound k 2 ltac:(lia)) as Hmod.
    pose proof (Nat.div_mod_eq (S k) 2) as Hdiv'.
    pose proof (Nat.mod_upper_bound (S k) 2 ltac:(lia)) as Hmod'.
    unfold tag_absorbs. rewrite Hx. cbn [from_option].
    destruct (Nat.odd k) eqn:Hodd.
    + apply Nat.odd_spec in Hodd as [q Hq].
      destruct (lookup_lt_is_Some_2 c (k - 1) ltac:(lia)) as [y Hy].
      rewrite Hy. cbn [from_option orb].
      replace (2 * (k / 2)) with (k - 1) by lia.
      replace (if S k =? length c then S k else 2 * (S k / 2)) with (S (S (k - 1)))
        by (destruct (S k =? length c); lia).
      rewrite (take_S_r _ _ x) by (by replace (S (k - 1)) with k by lia).
      rewrite (take_S_r _ _ y) by done.
      by rewrite !map_app, <- app_assoc.
    + assert (Nat.even k = true) as Heven
        by (by rewrite <- Nat.negb_odd, Hodd).
      apply Nat.even_spec in Heven as [q Hq].
      replace (2 * (k / 2)) with k by lia. cbn [orb app].
      destruct (decide (k = length c - 1)) as [Hlast|Hlast].
      * replace (k =? length c - 1) with true by (symmetry; apply Nat.eqb_eq; lia).
        replace (S k =? length c) with true by (symmetry; apply Nat.eqb_eq; lia).
        by rewrite (take_S_r _ _ x), map_app.
      * replace (k =? length c - 1) with false by (symmetry; apply Nat.eqb_neq; lia).
        replace (S k =? length c) with false by (symmetry; apply Nat.eqb_neq; lia).
        rewrite app_nil_r. do 2 f_equal. lia.
Qed.

Lemma tag_absorbs_all (c : list Field) :
  flat_map (tag_absorbs c) (seq 0 (length c)) = map Absorb c.
Proof.
  rewrite tag_absorbs_prefix by lia.
  by rewrite Nat.eqb_refl, firstn_all.
Qed.

Lemma absorbed_stream_calls (c : list Field) :
  absorbed (stream_calls false c) = c.
Proof.
  transitivity (absorbed (flat_map (tag_absorbs c) (seq 0 (length c)))).
  - unfold stream_calls. by rewrite !absorbed_flat_map.
  - by rewrite tag_absorbs_all, absorbed_map_Absorb.
Qed.

End Binding.

(** ** Further properties of the operations *)

Section MoreOperations.
Context {P : Primitives} {L : PrimitivesLaws P}.

(** The ciphertext elements are absorbed once each, in index order, by the
    time the tag is squeezed.  In the legacy loops the sponge absorbs exactly
    the ciphertext; in the V2 loops it absorbs, index by index, the frame bit
    followed by a block of ciphertext elements, and the blocks put together
    are the ciphertext. *)
Theorem every_element_absorbed_once :
  (∀ (message : list Field) (sponge : Sponge), ∃ sponge' c,
     encrypt_loop message sponge = Ok (sponge', c) ∧
     absorbed (sponge_calls sponge') = absorbed (sponge_calls sponge) ++ c) ∧
  (∀ (c : list Field) (sponge : Sponge), ∃ sponge' message,
     decrypt_loop c sponge = Ok (sponge', message) ∧
     absorbed (sponge_calls sponge') = absorbed (sponge_calls sponge) ++ c) ∧
  (∀ (chunks : list (list byte)) (sponge : Sponge),
     ∃ sponge' c (block : nat → list Field),
       encryptV2_loop chunks sponge = Ok (sponge', c) ∧
       flat_map block (seq 0 (length c)) = c ∧
       absorbed (sponge_calls sponge') =
         absorbed (sponge_calls sponge) ++
         flat_map (λ i, Field_from (if i =? length c - 1 then 1 else 0) :: block i)
           (seq 0 (length c))) ∧
  (∀ (c : list Field) (sponge : Sponge),
     ∃ sponge' message (block : nat → list Field),
       decryptV2_loop c sponge = Ok (sponge', message) ∧
       flat_map block (seq 0 (length c)) = c ∧
       absorbed (sponge_calls sponge') =
         absorbed (sponge_calls sponge) ++
         flat_map (λ i, Field_from (if i =? length c - 1 then 1 else 0) :: block i)
           (seq 0 (length c))).
Proof.
  assert (∀ c : list Field,
            flat_map (λ i, absorbed (tag_absorbs c i)) (seq 0 (length c)) = c)
    as Hblocks.
  { intros c. by rewrite <- absorbed_flat_map, tag_absorbs_all, absorbed_map_Absorb. }
  repeat split.
  - intros message sponge.
    destruct (encrypt_loop_spec message sponge) as (sponge' & c & Hrun & _ & Hcalls & _).
    exists sponge', c. split; [done|].
    by rewrite Hcalls, absorbed_app, absorbed_stream_calls.
  - intros c sponge.
    destruct (decrypt_loop_spec c sponge) as (sponge' & message & Hrun & _ & Hcalls).
    exists sponge', message. split; [done|].
    by rewrite Hcalls, absorbed_app, absorbed_stream_calls.
  - intros chunks sponge.
    destruct (encryptV2_loop_spec chunks sponge)
      as (sponge' & c & Hrun & _ & Hcalls & _).
    exists sponge', c, (λ i, absorbed (tag_absorbs c i)).
    split; [done|]. split; [apply Hblocks|].
    rewrite Hcalls, absorbed_app. unfold stream_calls. by rewrite absorbed_flat_map.
  - intros c sponge.
    destruct (decryptV2_loop_spec c sponge) as (sponge' & words & Hrun & _ & Hcalls).
    exists sponge', (unpack words), (λ i, absorbed (tag_absorbs c i)).
    split; [done|]. split; [apply Hblocks|].
    rewrite Hcalls, absorbed_app. unfold stream_calls. by rewrite absorbed_flat_map.
Qed.

(** The legacy pair round-trips for a message of any length, the empty one
    included. *)
Theorem legacy_round_trip_any_length (fields : list Field) (sk r : Scalar)
    (σ : store) :
  ∃ c σ' σ'',
    encrypt fields (Group_scale Group_generator sk) r σ = (Ok c, σ') ∧
    decrypt c sk σ' = (Ok fields, σ'').
Proof. apply decrypt_of_encrypt. Qed.

(** [encrypt] always returns.  The record carries the ephemeral public key
    and a new array, of one element per message element and the tag; no
    array that existed and no [Bytes] object is changed. *)
Theorem encrypt_returns_new_array (message : list Field) (otherPublicKey : Group)
    (r : Scalar) (σ : store) :
  ∃ c σ' ct,
    encrypt message otherPublicKey r σ = (Ok c, σ') ∧
    publicKey c = Group_scale Group_generator r ∧
    field_arrays σ !! cipherText c = None ∧
    field_arrays σ' !! cipherText c = Some ct ∧
    length ct = length message + 1 ∧
    (∀ a, a ≠ cipherText c → field_arrays σ' !! a = field_arrays σ !! a) ∧
    bytes_objects σ' = bytes_objects σ.
Proof.
  destruct (encrypt_run message otherPublicKey r σ) as (sponge' & ct & Hloop & Henc).
  destruct (encrypt_loop_spec message (shared_sponge otherPublicKey r))
    as (? & ? & Hloop' & Hlen & _).
  rewrite Hloop in Hloop'. injection Hloop' as <- <-.
  eexists _, _, _. split; [exact Henc|].
  cbn [publicKey cipherText field_arrays bytes_objects].
  split; [done|].
  split; [apply not_elem_of_dom, is_fresh|].
  split; [apply lookup_insert_eq|].
  split; [rewrite length_app, Hlen; cbn [length]; lia|].
  split; [|done].
  intros a Ha. by apply lookup_insert_ne.
Qed.

(** [encryptV2] returns for every message object.  The record carries the
    ephemeral public key, the original length, and a new array of
    [ceil(length / 31)] chunks and the tag (for the empty message, the tag
    alone); apart from the message object, nothing that existed is changed. *)
Theorem encryptV2_returns_new_array (message : positive) (bytes : list byte)
    (otherPublicKey : Group) (r : Scalar) (σ : store) :
  bytes_objects σ !! message = Some bytes →
  ∃ c σ' ct,
    encryptV2 message otherPublicKey r σ = (Ok c, σ') ∧
    publicKey (base c) = Group_scale Group_generator r ∧
    messageLength c = Z.of_nat (length bytes) ∧
    field_arrays σ !! cipherText (base c) = None ∧
    field_arrays σ' !! cipherText (base c) = Some ct ∧
    Z.of_nat (length ct) = (Math_ceil_div (Z.of_nat (length bytes)) 31 + 1)%Z ∧
    (∀ a, a ≠ cipherText (base c) → field_arrays σ' !! a = field_arrays σ !! a) ∧
    (∀ b, b ≠ message → bytes_objects σ' !! b = bytes_objects σ !! b).
Proof.
  intros Hbytes.
  destruct (encryptV2_run message otherPublicKey r σ bytes Hbytes)
    as (sponge' & ct & Hloop & Henc).
  destruct (encryptV2_loop_spec (chunk (padded_bytes bytes) 31)
              (shared_sponge otherPublicKey r)) as (? & ? & Hloop' & Hlen & _).
  rewrite Hloop in Hloop'. injection Hloop' as <- <-.
  eexists _, _, _. split; [exact Henc|].
  cbn [publicKey cipherText base messageLength field_arrays bytes_objects].
  split; [done|]. split; [done|].
  split; [apply not_elem_of_dom, is_fresh|].
  split; [apply lookup_insert_eq|].
  split.
  { rewrite length_app, Hlen. cbn [length].
    pose proof (chunk_padded_count bytes). lia. }
  split; intros x Hx; by apply lookup_insert_ne.
Qed.

(** When [decrypt] returns, it returns one field element per element of the
    array it was given, the tag apart. *)
Theorem decrypt_returns_one_per_chunk (c : CipherText) (sk : Scalar) (σ : store)
    (xs message : list Field) :
  field_arrays σ !! cipherText c = Some xs →
  fst (decrypt c sk σ) = Ok message →
  length xs = length message + 1.
Proof.
  intros Harray Hres. rewrite (decrypt_run _ _ _ _ Harray) in Hres.
  cbn [fst] in Hres. unfold decrypt_result in Hres.
  destruct (decrypt_loop_spec (removelast xs) (shared_sponge (publicKey c) sk))
    as (sponge' & decrypted & Hloop & Hlen & _).
  rewrite Hloop in Hres. cbn [result_bind] in Hres.
  destruct (decide (xs = [])) as [->|Hne]; [discriminate Hres|].
  destruct (exists_last Hne) as (body & tag & ->).
  rewrite removelast_last in Hlen.
  destruct (assertEquals _ _) as [[]|e]; [|discriminate Hres].
  injection Hres as <-. rewrite length_app, Hlen. cbn [length]. lia.
Qed.

(** [messageLength] is not covered by the tag: changing it in the record
    changes neither whether [decryptV2] returns or throws, nor the error, nor
    what the call does to the store. *)
Theorem messageLength_is_not_authenticated (c : CipherTextV2) (sk : Scalar)
    (σ : store) (messageLength' : Z) :
  let c' := {| base := base c; messageLength := messageLength' |} in
  snd (decryptV2 c' sk σ) = snd (decryptV2 c sk σ) ∧
  match fst (decryptV2 c sk σ), fst (decryptV2 c' sk σ) with
  | Ok _, Ok _ => True
  | Err e, Err e' => e = e'
  | _, _ => False
  end.
Proof.
  intros c'.
  destruct (field_arrays σ !! cipherText (base c)) as [xs|] eqn:Harray.
  - rewrite (decryptV2_run c _ _ _ Harray), (decryptV2_run c' _ _ _ Harray).
    cbn [fst snd base messageLength c']. split; [done|].
    unfold decryptV2_result.
    destruct (decryptV2_loop _ _) as [[sponge' message]|]; [|done].
    cbn [result_bind]. by destruct (assertEquals _ _).
  - unfold decryptV2, Exec_bind, Array_pop. cbn [base c']. by rewrite Harray.
Qed.

(** Encrypting the same [Bytes] object again: the object already holds the
    padded bytes, so the second record carries the padded length as
    [messageLength], not the length of the original message, and the object
    is not padded further. *)
Theorem encryptV2_twice_records_padded_length (message : positive)
    (bytes : list byte) (pk pk' : Group) (r r' : Scalar) (σ : store) :
  bytes_objects σ !! message = Some bytes →
  ∃ c2 σ2,
    encryptV2 message pk' r' (snd (encryptV2 message pk r σ)) = (Ok c2, σ2) ∧
    messageLength c2 = padded_length (Z.of_nat (length bytes)) ∧
    bytes_objects σ2 !! message = Some (padded_bytes bytes).
Proof.
  intros Hbytes.
  destruct (encryptV2_run message pk r σ bytes Hbytes) as (? & ? & _ & ->).
  cbn [snd].
  match goal with
  | |- context [encryptV2 _ _ _ ?σ1] =>
      destruct (encryptV2_run message pk' r' σ1 (padded_bytes bytes))
        as (sponge2 & ct2 & _ & Henc2);
        [cbn [bytes_objects]; apply lookup_insert_eq|]
  end.
  eexists _, _. split; [exact Henc2|].
  cbn [messageLength bytes_objects].
  split; [apply length_padded_bytes|].
  rewrite lookup_insert_eq. f_equal.
  unfold padded_bytes at 1. rewrite length_padded_bytes.
  pose proof (padded_length_bounds (Z.of_nat (length bytes)) ltac:(lia)).
  assert (padded_length (padded_length (Z.of_nat (length bytes))) =
          padded_length (Z.of_nat (length bytes))) as ->.
  { rewrite (padded_length_div (Z.of_nat (length bytes))).
    apply padded_length_multiple. }
  rewrite Z.sub_diag. apply app_nil_r.
Qed.

(** The tag element is checked: in the array that [encrypt] or [encryptV2]
    produced, replacing the last element by any other field element makes
    the decrypting function throw the assertion error. *)
Theorem replaced_tag_is_rejected (fields : list Field) (message : positive)
    (bytes : list byte) (sk r : Scalar) (σ : store) :
  bytes_objects σ !! message = Some bytes →
  (∃ c σ' body tag,
     encrypt fields (Group_scale Group_generator sk) r σ = (Ok c, σ') ∧
     field_arrays σ' !! cipherText c = Some (body ++ [tag]) ∧
     ∀ tag' τ, tag' ≠ tag →
       field_arrays τ !! cipherText c = Some (body ++ [tag']) →
       fst (decrypt c sk τ) = Err AssertionError) ∧
  (∃ c σ' body tag,
     encryptV2 message (Group_scale Group_generator sk) r σ = (Ok c, σ') ∧
     field_arrays σ' !! cipherText (base c) = Some (body ++ [tag]) ∧
     ∀ tag' τ, tag' ≠ tag →
       field_arrays τ !! cipherText (base c) = Some (body ++ [tag']) →
       fst (decryptV2 c sk τ) = Err AssertionError).
Proof.
  intros Hbytes. split.
  - destruct (encrypt_run fields (Group_scale Group_generator sk) r σ)
      as (sponge' & ct & Hloop & Henc).
    destruct (encrypt_loop_spec fields (shared_sponge (Group_scale Group_generator sk) r))
      as (? & ? & Hloop' & _ & _ & decrypted & Hdec & _).
    rewrite Hloop in Hloop'. injection Hloop' as <- <-.
    eexists _, _, ct, _. split; [exact Henc|].
    split; [cbn [field_arrays cipherText]; apply lookup_insert_eq|].
    intros tag' τ Hne Harray.
    rewrite (decrypt_run _ _ _ _ Harray), removelast_last, last_snoc.
    cbn [fst publicKey]. unfold decrypt_result.
    rewrite shared_sponge_comm, Hdec. cbn [result_bind].
    by rewrite assertEquals_differ.
  - destruct (encryptV2_run message (Group_scale Group_generator sk) r σ bytes Hbytes)
      as (sponge' & ct & Hloop & Henc).
    destruct (encryptV2_loop_spec (chunk (padded_bytes bytes) 31)
                (shared_sponge (Group_scale Group_generator sk) r))
      as (? & ? & Hloop' & _ & _ & words & Hdec & _).
    rewrite Hloop in Hloop'. injection Hloop' as <- <-.
    eexists _, _, ct, _. split; [exact Henc|].
    split; [cbn [field_arrays cipherText base]; apply lookup_insert_eq|].
    intros tag' τ Hne Harray.
    rewrite (decryptV2_run _ _ _ _ Harray), removelast_last, last_snoc.
    cbn [fst publicKey base]. unfold decryptV2_result.
    rewrite shared_sponge_comm, Hdec. cbn [result_bind].
    by rewrite assertEquals_differ.
Qed.

(** An empty array: [pop] finds no tag and leaves the array empty, the loop
    does not run, and the comparison with the missing tag throws; no message
    is returned. *)
Theorem empty_ciphertext_throws (c : CipherTextV2) (sk : Scalar) (σ : store) :
  field_arrays σ !! cipherText (base c) = Some [] →
  fst (decrypt (base c) sk σ) = Err TypeError ∧
  field_arrays (snd (decrypt (base c) sk σ)) !! cipherText (base c) = Some [] ∧
  fst (decryptV2 c sk σ) = Err TypeError ∧
  field_arrays (snd (decryptV2 c sk σ)) !! cipherText (base c) = Some [].
Proof.
  intros Harray.
  rewrite (decrypt_run _ _ _ _ Harray), (decryptV2_run _ _ _ _ Harray).
  cbn [fst snd field_arrays removelast last].
  repeat split; try apply lookup_insert_eq; done.
Qed.

End MoreOperations.

(** * The equivalence tester *)

Module EquivalentProperties.
Import Equivalent.

Section Properties.
Context {W Value : Type} (truthy : Value → bool).

(** No exception of the operations under test leaves [handleErrors]: what it
    throws is the assertion error of the comparison of the two error flags,
    with the message built from the label, or what [useResults] threw. *)
Theorem handleErrors_never_rethrows {T S R : Type} (op1 : @Op W Value T) (op2 : @Op W Value S)
    (useResults : option (option T → option S → @Op W Value R)) (label : option string)
    (w : W) (e : exception) :
  fst (fst (handleErrors truthy op1 op2 useResults label w)) = Throws e →
  e = AssertionError (message_of label) ∨
  ∃ f result1 result2 w', useResults = Some f ∧ fst (f result1 result2 w') = Throws e.
Proof.
  unfold handleErrors.
  destruct (try_catch op1 w) as [[result1 error1] w1].
  destruct (try_catch op2 w1) as [[result2 error2] w2].
  destruct (negb (eqb _ _)); cbn [fst].
  - intros [= <-]. by left.
  - destruct useResults as [f|]; [|done].
    destruct (negb (_ || _)); [|done].
    destruct (f result1 result2 w2) as [[r|e'] w3] eqn:Hf; cbn [fst]; [done|].
    intros [= <-]. right. exists f, result1, result2, w2. by rewrite Hf.
Qed.

(** Two operations that both throw are taken as equivalent, whatever they
    throw: [handleErrors] returns [undefined], does not call [useResults]
    and writes nothing to the console.  The second operation has run in the
    state that the first one left. *)
Theorem handleErrors_both_throw {T S R : Type} (op1 : @Op W Value T) (op2 : @Op W Value S)
    (useResults : option (option T → option S → @Op W Value R)) (label : option string)
    (w w1 w2 : W) (e1 e2 : exception) :
  op1 w = (Throws e1, w1) → op2 w1 = (Throws e2, w2) →
  caught_truthy truthy (Some e1) = true → caught_truthy truthy (Some e2) = true →
  handleErrors truthy op1 op2 useResults label w = (Returns None, w2, []).
Proof.
  intros Hop1 Hop2 He1 He2. unfold handleErrors, try_catch.
  rewrite Hop1, Hop2, He1, He2. cbn [eqb negb orb].
  by destruct useResults.
Qed.

(** When one operation throws and the other returns, in either order,
    [handleErrors] throws the assertion error with the message of the label,
    never calls [useResults], and writes the caught value to the console. *)
Theorem handleErrors_one_throws {T S R : Type} (op1 : @Op W Value T) (op2 : @Op W Value S)
    (useResults : option (option T → option S → @Op W Value R)) (label : option string)
    (w w1 w2 : W) (e : exception) (a : T) (b : S) :
  caught_truthy truthy (Some e) = true →
  (op1 w = (Throws e, w1) ∧ op2 w1 = (Returns b, w2)) ∨
  (op1 w = (Returns a, w1) ∧ op2 w1 = (Throws e, w2)) →
  handleErrors truthy op1 op2 useResults label w =
  (Throws (AssertionError (message_of label)), w2, [e]).
Proof.
  intros He [[Hop1 Hop2]|[Hop1 Hop2]]; unfold handleErrors, try_catch, logged;
    rewrite Hop1, Hop2; cbn [caught_truthy] in *; rewrite ?He;
    cbn [eqb negb app]; by rewrite ?He.
Qed.

(** A falsy thrown value goes unnoticed: when the first operation throws
    one and the second returns, the flags agree, nothing is reported, and
    [useResults] is called with [undefined] in place of the first result. *)
Theorem handleErrors_falsy_throw {T S R : Type} (op1 : @Op W Value T) (op2 : @Op W Value S)
    (f : option T → option S → @Op W Value R) (label : option string)
    (w w1 w2 : W) (v : Value) (b : S) :
  op1 w = (Throws (UserValue v), w1) → truthy v = false →
  op2 w1 = (Returns b, w2) →
  handleErrors truthy op1 op2 (Some f) label w =
  (match fst (f None (Some b) w2) with
   | Returns r => Returns (Some r)
   | Throws e => Throws e
   end, snd (f None (Some b) w2), []).
Proof.
  intros Hop1 Hv Hop2. unfold handleErrors, try_catch.
  rewrite Hop1, Hop2. cbn [caught_truthy]. rewrite Hv. cbn [eqb negb orb].
  by destruct (f None (Some b) w2).
Qed.

(** A [FromSpec] whose [there] is a function that returns. *)
Definition pure_spec {In1 In2 : Type} (t : In1 → In2) : FromSpec (W := W) (Value := Value) In1 In2 :=
  {| there := λ x, Op_ret (t x) |}.

Lemma map_there_pure {In1 In2 : Type} (ts : list (In1 → In2)) (inputs : list In1) :
  ∀ (i : nat) (w : W),
    i + length inputs ≤ length ts →
    map_there (map pure_spec ts) i inputs w =
    (Returns (zip_with (λ t x, t x) (drop i ts) inputs), w).
Proof.
  induction inputs as [|x rest IH]; intros i w Hlen.
  - cbn [map_there]. by destruct (drop i ts).
  - cbn [length] in Hlen.
    destruct (lookup_lt_is_Some_2 ts i ltac:(lia)) as [t Ht].
    cbn [map_there]. change (map pure_spec ts) with (pure_spec <$> ts).
    rewrite list_lookup_fmap, Ht. cbn [fmap option_fmap option_map].
    unfold Op_bind at 1. cbn [there pure_spec]. unfold Op_ret at 1.
    unfold Op_bind. change (pure_spec <$> ts) with (map pure_spec ts).
    rewrite IH by lia. unfold Op_ret.
    by rewrite (drop_S _ _ _ Ht).
Qed.

(** For implementations and conversions that return, the check of one
    generated input passes exactly when [f1(...inputs)] and
    [back(f2(...inputs.map(there)))] are equal for [deepEqual], and throws the
    assertion error with the label otherwise; the state is left alone and
    nothing is written to the console. *)
Theorem equivalent_case_compares_results {In1 In2 Out1 Out2 : Type}
    (ts : list (In1 → In2)) (b : Out2 → Out1) (same : Out1 → Out1 → bool)
    (g1 : list In1 → Out1) (g2 : list In2 → Out2) (label : string)
    (inputs : list In1) (w : W) :
  length inputs = length ts →
  equivalent_case truthy (map pure_spec ts)
    {| back := λ y, Op_ret (b y); assertEqual := None |} same
    (λ xs, Op_ret (g1 xs)) (λ ys, Op_ret (g2 ys)) label inputs w =
  (if same (g1 inputs) (b (g2 (zip_with (λ t x, t x) ts inputs)))
   then Returns (Some tt) else Throws (AssertionError label),
   w, []).
Proof.
  intros Hlen.
  assert (∀ w0 : W,
            Op_bind (map_there (map pure_spec ts) 0 inputs)
              (λ inputs2, Op_bind (Op_ret (Value := Value) (g2 inputs2))
                            (λ y, Op_ret (b y))) w0 =
            (Returns (b (g2 (zip_with (λ t x, t x) ts inputs))), w0)) as Hop2.
  { intros w0. unfold Op_bind. rewrite map_there_pure by (cbn; lia).
    by rewrite drop_0. }
  unfold equivalent_case, handleErrors, try_catch.
  cbn [back assertEqual default].
  change (Op_ret (g1 inputs) w) with (Returns (Value := Value) (g1 inputs), w).
  cbv iota beta. rewrite Hop2.
  cbn [caught_truthy eqb negb orb].
  unfold deepEqual. by destruct (same _ _).
Qed.

End Properties.

(** Closed examples: the state is a counter that every operation advances,
    thrown values are booleans, truthy when [true]. *)

Definition failing (v : bool) : @Op nat bool nat :=
  λ w, (Throws (UserValue v), S w).

Definition returning (a : nat) : @Op nat bool nat :=
  λ w, (Returns a, S w).

Definition compare : option nat → option nat → @Op nat bool unit :=
  λ x y, deepEqual Nat.eqb x y "differ".

Lemma handleErrors_never_rethrows_witness :
  fst (fst (handleErrors id (returning 1) (returning 2) (Some compare) (Some "sum") 0)) =
    Throws (AssertionError "differ") ∧
  (AssertionError (Value := bool) "differ" = AssertionError (message_of (Some "sum")) ∨
   ∃ f result1 result2 w',
     Some compare = Some f ∧
     fst (f result1 result2 w') = Throws (AssertionError "differ")).
Proof.
  split; [reflexivity|].
  apply (handleErrors_never_rethrows id (returning 1) (returning 2) (Some compare)
           (Some "sum") 0).
  reflexivity.
Defined.

Lemma handleErrors_both_throw_witness :
  failing true 0 = (Throws (UserValue true), 1) ∧
  throwError (A := nat) (λ _, true) (Some "other") 1 = (Throws (UserValue true), 1) ∧
  handleErrors id (failing true) (throwError (λ _, true) (Some "other"))
    (Some compare) (Some "sum") 0 = (Returns None, 1, []).
Proof.
  split; [reflexivity|]. split; [reflexivity|].
  apply (handleErrors_both_throw id (failing true)
           (throwError (λ _, true) (Some "other")) (Some compare) (Some "sum")
           0 1 1 (UserValue true) (UserValue true));
    reflexivity.
Defined.

Lemma handleErrors_one_throws_witness :
  failing true 0 = (Throws (UserValue true), 1) ∧
  returning 2 1 = (Returns 2, 2) ∧
  handleErrors id (failing true) (returning 2) (Some compare) (Some "sum") 0 =
    (Throws (AssertionError "sum: equivalent errors"), 2, [UserValue true]).
Proof.
  split; [reflexivity|]. split; [reflexivity|].
  apply (handleErrors_one_throws id (failing true) (returning 2) (Some compare)
           (Some "sum") 0 1 2 (UserValue true) 0 2); [reflexivity|].
  left. split; reflexivity.
Defined.

Lemma handleErrors_falsy_throw_witness :
  failing false 0 = (Throws (UserValue false), 1) ∧
  returning 2 1 = (Returns 2, 2) ∧
  handleErrors id (failing false) (returning 2) (Some compare) (Some "sum") 0 =
    (Throws (AssertionError "differ"), 2, []).
Proof.
  split; [reflexivity|]. split; [reflexivity|].
  apply (handleErrors_falsy_throw id (failing false) (returning 2) compare
           (Some "sum") 0 1 2 false 2);
    reflexivity.
Defined.

Lemma equivalent_case_compares_results_witness :
  length [3; 4] = length [Nat.succ; Nat.pred] ∧
  equivalent_case (W := nat) (Value := bool) id (map pure_spec [Nat.succ; Nat.pred])
    {| back := λ y, Op_ret (y + 1); assertEqual := None |} Nat.eqb
    (λ xs, Op_ret (list_sum xs)) (λ ys, Op_ret (list_sum ys - 1)) "sum" [3; 4] 0 =
  (Returns (Some tt), 0, []).
Proof.
  split; [reflexivity|].
  apply (equivalent_case_compares_results (W := nat) (Value := bool) id
           [Nat.succ; Nat.pred] (λ y, y + 1) Nat.eqb list_sum (λ ys, list_sum ys - 1)
           "sum" [3; 4] 0).
  reflexivity.
Defined.

End EquivalentProperties.

(** * More closed examples on the reference instance *)

Section MoreExamples.
Import Reference ReferenceLaws.

(** The empty message, legacy pair. *)
Lemma legacy_round_trip_any_length_witness :
  ∃ c σ' σ'',
    encrypt (P := primitives) [] (Group_scale Group_generator recipient) ephemeral
      (store_with []) = (Ok c, σ') ∧
    decrypt c recipient σ' = (Ok [], σ'').
Proof.
  apply (legacy_round_trip_any_length (P := primitives) [] recipient ephemeral
           (store_with [])).
Defined.

(** 32 letters: two chunks and the tag. *)
Lemma encryptV2_returns_new_array_witness :
  bytes_objects (store_with (letters 32)) !! 1%positive = Some (letters 32) ∧
  ∃ c σ' ct,
    encryptV2 1%positive recipient_key ephemeral (store_with (letters 32)) = (Ok c, σ') ∧
    messageLength c = 32%Z ∧
    field_arrays σ' !! cipherText (base c) = Some ct ∧
    Z.of_nat (length ct) = 3%Z.
Proof.
  split; [reflexivity|].
  destruct (encryptV2_returns_new_array (P := primitives) 1%positive (letters 32)
              recipient_key ephemeral (store_with (letters 32)) eq_refl)
    as (c & σ' & ct & Henc & _ & Hml & _ & Harray & Hlen & _).
  exists c, σ', ct. split; [exact Henc|]. split; [exact Hml|].
  split; [exact Harray|exact Hlen].
Defined.

(** The store after the legacy encryption of three field elements. *)
Definition legacy_sample : store :=
  snd (encrypt [Fp_of_Z 7; Fp_of_Z 8; Fp_of_Z 9] recipient_key ephemeral
         (store_with [])).

Lemma decrypt_returns_one_per_chunk_witness :
  ∃ xs,
    field_arrays legacy_sample !! cipherText (base (sent 0)) = Some xs ∧
    fst (decrypt (base (sent 0)) recipient legacy_sample) =
      Ok [Fp_of_Z 7; Fp_of_Z 8; Fp_of_Z 9] ∧
    length xs = length [Fp_of_Z 7; Fp_of_Z 8; Fp_of_Z 9] + 1.
Proof.
  eexists. split; [reflexivity|]. split; [reflexivity|].
  apply (decrypt_returns_one_per_chunk (P := primitives) (base (sent 0)) recipient
           legacy_sample _ [Fp_of_Z 7; Fp_of_Z 8; Fp_of_Z 9]);
    reflexivity.
Defined.

(** Five letters, encrypted twice: the second record says 31. *)
Lemma encryptV2_twice_records_padded_length_witness :
  bytes_objects (store_with (letters 5)) !! 1%positive = Some (letters 5) ∧
  ∃ c2 σ2,
    encryptV2 1%positive recipient_key ephemeral
      (snd (encryptV2 1%positive recipient_key ephemeral (store_with (letters 5)))) =
      (Ok c2, σ2) ∧
    messageLength c2 = 31%Z ∧
    bytes_objects σ2 !! 1%positive = Some (letters 5 ++ replicate 26 x00).
Proof.
  split; [reflexivity|].
  apply (encryptV2_twice_records_padded_length (P := primitives) 1%positive
           (letters 5) recipient_key recipient_key ephemeral ephemeral
           (store_with (letters 5))).
  reflexivity.
Defined.

Lemma replaced_tag_is_rejected_witness :
  bytes_objects (store_with (letters 1)) !! 1%positive = Some (letters 1) ∧
  (∃ c σ' body tag,
     encrypt [Fp_of_Z 7] (Group_scale Group_generator recipient) ephemeral
       (store_with (letters 1)) = (Ok c, σ') ∧
     field_arrays σ' !! cipherText c = Some (body ++ [tag]) ∧
     ∀ tag' τ, tag' ≠ tag →
       field_arrays τ !! cipherText c = Some (body ++ [tag']) →
       fst (decrypt c recipient τ) = Err AssertionError) ∧
  (∃ c σ' body tag,
     encryptV2 1%positive (Group_scale Group_generator recipient) ephemeral
       (store_with (letters 1)) = (Ok c, σ') ∧
     field_arrays σ' !! cipherText (base c) = Some (body ++ [tag]) ∧
     ∀ tag' τ, tag' ≠ tag →
       field_arrays τ !! cipherText (base c) = Some (body ++ [tag']) →
       fst (decryptV2 c recipient τ) = Err AssertionError).
Proof.
  split; [reflexivity|].
  apply (replaced_tag_is_rejected (P := primitives) [Fp_of_Z 7] 1%positive
           (letters 1) recipient ephemeral (store_with (letters 1))).
  reflexivity.
Defined.

Lemma empty_ciphertext_throws_witness :
  field_arrays (store_with_array []) !! cipherText (base (sent 0)) = Some [] ∧
  fst (decrypt (base (sent 0)) recipient (store_with_array [])) = Err TypeError ∧
  field_arrays (snd (decrypt (base (sent 0)) recipient (store_with_array [])))
    !! cipherText (base (sent 0)) = Some [] ∧
  fst (decryptV2 (sent 0) recipient (store_with_array [])) = Err TypeError ∧
  field_arrays (snd (decryptV2 (sent 0) recipient (store_with_array [])))
    !! cipherText (base (sent 0)) = Some [].
Proof.
  split; [reflexivity|].
  apply (empty_ciphertext_throws (P := primitives) (sent 0) recipient
           (store_with_array [])).
  reflexivity.
Defined.

End MoreExamples.
